(** * commandline-parser: a shallow embedding of [commandline.cpp]

    The engine of [namespace commandline] is embedded method by method:
    [std::string] values are Rocq strings, the catalog [m_options] is a list
    of [option_t] records, the result table [m_table]
    ([std::unordered_map<std::string, std::vector<std::string>>]) is a
    [gmap string (list string)], and the argument vector [char** argv] is a
    list of tokens followed by its [NULL] terminator, read through a cursor.
    Methods that touch the table, exit the process, throw or read memory run
    in a small state-and-outcome monad. *)

From Stdlib Require Import ZArith Ascii.
From stdpp Require Import base option list strings gmap.

Local Open Scope Z_scope.
Local Open Scope nat_scope.

(** ** [std::string] operations used by the engine *)

Module cxx.

(** A call that may throw [std::out_of_range]. *)
Inductive partial (A : Type) : Type :=
| Value (a : A)
| OutOfRange.
Arguments Value {A} a.
Arguments OutOfRange {A}.

Definition nl : string := String (ascii_of_nat 10) "".

(** [s.empty()] *)
Definition empty (s : string) : bool :=
  match s with "" => true | String _ _ => false end.

(** [s[i]]; [s[s.size()]] is the terminating ['\0']. *)
Definition at0 (s : string) : ascii :=
  match s with "" => zero | String c _ => c end.

(** Value of the counter after
    [for (i=0; i < length; ++i) if (s[i] == c) break;]. *)
Fixpoint scan (c : ascii) (s : string) : nat :=
  match s with
  | "" => 0
  | String a s' => if Ascii.eqb a c then 0 else S (scan c s')
  end.

(** [s.find(c) != std::string::npos] *)
Definition contains (c : ascii) (s : string) : bool :=
  scan c s <? String.length s.

(** [s.substr(pos)]: throws when [pos > s.size()]. *)
Definition substr (s : string) (pos : nat) : partial string :=
  if pos <=? String.length s
  then Value (String.substring pos (String.length s - pos) s)
  else OutOfRange.

(** [s.substr(pos, n)] for [pos <= s.size()]. *)
Definition substr_n (s : string) (pos n : nat) : string :=
  String.substring pos n s.

(** [s.insert(0, p)] *)
Definition insert0 (p s : string) : string := p +:+ s.

(** [s.erase(0, 1)] *)
Definition erase0 (s : string) : string :=
  match s with "" => "" | String _ s' => s' end.

(** [snprintf(buf, size, ...)] keeps at most [size - 1] characters. *)
Definition snprintf (size : nat) (s : string) : string :=
  String.substring 0 (size - 1) s.

End cxx.

(** ** The engine *)

Module commandline.
Import cxx.

Definition kArgumentNameLength : nat := 32.

Inductive argument_t : Type :=
| no_argument
| required_argument
| optional_argument
| list_argument.

Record option_t : Type := mk_option {
  shortopt : string;
  longopt : string;
  name : string;
  argument : argument_t;
  desc : string
}.

Definition optlist_t : Type := list option_t.

Abbreviation keyval_t := (gmap string (list string)).

(** *** Outcomes of a method call *)

Inductive fault : Type :=
| null_string      (* a std::string built from a null char* *)
| null_pointer     (* arithmetic or a read through a null char** *)
| out_of_bounds.   (* a read past the terminator of argv *)

Inductive outcome (A : Type) : Type :=
| Ret (a : A) (m_table : keyval_t)
| Exit (status : Z) (out err : string) (m_table : keyval_t)
| Throw
| Fault (f : fault)
| OutOfFuel.
Arguments Ret {A} a m_table.
Arguments Exit {A} status out err m_table.
Arguments Throw {A}.
Arguments Fault {A} f.
Arguments OutOfFuel {A}.

Definition M (A : Type) : Type := keyval_t → outcome A.

Definition ret {A} (a : A) : M A := fun t => Ret a t.

Definition bind {A B} (m : M A) (k : A → M B) : M B := fun t =>
  match m t with
  | Ret a t' => k a t'
  | Exit c o e t' => Exit c o e t'
  | Throw => Throw
  | Fault f => Fault f
  | OutOfFuel => OutOfFuel
  end.

Definition exit {A} (status : Z) (out err : string) : M A :=
  fun t => Exit status out err t.

Definition out_of_fuel {A} : M A := fun _ => OutOfFuel.

Definition fail {A} (f : fault) : M A := fun _ => Fault f.

Definition lift {A} (p : partial A) : M A := fun t =>
  match p with
  | Value a => Ret a t
  | OutOfRange => Throw
  end.

#[global] Instance M_ret : MRet M := @ret.
#[global] Instance M_bind : MBind M := fun A B k m => bind m k.

(** *** The argument vector

    [argv] holds the tokens (program name first); the array has one more
    cell, the [NULL] terminator. A cursor [char** argp] is an index. *)

Inductive cell : Type :=
| Tok (s : string)
| Null
| Outside.

Definition deref (argv : list string) (argp : nat) : cell :=
  match argv !! argp with
  | Some s => Tok s
  | None => if argp =? length argv then Null else Outside
  end.

(** *** Pure helpers: [extract], the [is_*_option] family, [find_option] *)

Definition extract (opt : string) (field : Z) : string :=
  if negb (field =? 1)%Z && negb (field =? 2)%Z then ""
  else if negb (contains "=" opt)
  then (if (field =? 1)%Z then opt else "")
  else
    let len := String.length opt in
    let i := scan "=" opt in
    if (field =? 1)%Z then substr_n opt 0 i
    else let i := S i in substr_n opt i (len - i).

Definition extract_option (opt : string) : string := extract opt 1.
Definition extract_value (opt : string) : string := extract opt 2.

(** [is_short_option(const option_t*, std::string)] *)
Definition is_short_option_of (data : option option_t) (opt : string) : bool :=
  match data with
  | None => false
  | Some d => String.eqb opt (shortopt d)
  end.

(** [is_long_option(const option_t*, std::string)] *)
Definition is_long_option_of (data : option option_t) (opt : string) : bool :=
  match data with
  | None => false
  | Some d => String.eqb opt (longopt d)
              || String.eqb (extract_option opt) (longopt d)
  end.

(** [is_option(const option_t*, std::string)] *)
Definition is_option_of (data : option option_t) (opt : string) : bool :=
  is_short_option_of data opt || is_long_option_of data opt.

Fixpoint find_in (opts : optlist_t) (opt : string) : option option_t :=
  match opts with
  | [] => None
  | d :: rest => if is_option_of (Some d) opt then Some d else find_in rest opt
  end.

Section engine.

(** The macro [PROGRAM] is supplied by the embedding program. *)
Variable PROGRAM : string.
Variable m_options : optlist_t.

Definition find_option (opt : string) : option option_t :=
  find_in m_options opt.

Definition is_short_option (opt : string) : bool :=
  is_short_option_of (find_option opt) opt.

Definition is_long_option (opt : string) : bool :=
  is_long_option_of (find_option opt) opt.

Definition is_option (opt : string) : bool :=
  is_short_option opt || is_long_option opt.

Definition to_short_option (opt : string) : string :=
  match find_option opt with Some d => shortopt d | None => "" end.

Definition to_long_option (opt : string) : string :=
  match find_option opt with Some d => longopt d | None => "" end.

(** The tail of [to_key]: the key of a resolved descriptor. *)
Definition key_of (data : option option_t) : partial string :=
  match data with
  | None => Value ""
  | Some d =>
      if negb (empty (longopt d)) then substr (longopt d) 2
      else if negb (empty (shortopt d)) then substr (shortopt d) 1
      else Value ""
  end.

(** The head of [to_key]: which descriptor the spelling denotes. *)
Definition resolve (input : string) : option option_t :=
  if negb (Ascii.eqb (at0 input) "-")
  then
    let input := insert0 "--" input in
    match find_option input with
    | Some d => Some d
    | None => find_option (erase0 input)
    end
  else find_option input.

Definition to_key (input : string) : partial string :=
  key_of (resolve input).

(** *** Table operations *)

(** [m_table[key].push_back(value)] *)
Definition push_back (key value : string) (t : keyval_t) : keyval_t :=
  <[key := default [] (t !! key) ++ [value]]> t.

Definition table_push_back (key value : string) : M unit :=
  fun t => Ret tt (push_back key value t).

(** [m_table.find(key) != m_table.end()] *)
Definition table_contains (key : string) : M bool :=
  fun t => Ret (bool_decide (is_Some (t !! key))) t.

(** [m_table[key].at(0)]: [at] throws on an empty vector. *)
Definition table_at0 (key : string) : M string :=
  fun t => match default [] (t !! key) with
           | v :: _ => Ret v t
           | [] => Throw
           end.

Definition set (opt value : string) : M Z :=
  key ← lift (to_key opt);
  if empty key then mret (-1)%Z
  else (_ ← table_push_back key value; mret 0%Z).

Definition has (opt : string) : M bool :=
  key ← lift (to_key opt);
  table_contains key.

Definition get (opt : string) : M string :=
  h ← has opt;
  if (h : bool) then (key ← lift (to_key opt); table_at0 key)
  else mret "".

(** *** Usage text *)

Definition usage_entry (data : option_t) : string :=
  let arg := if empty (name data) then ""
             else snprintf kArgumentNameLength ("=<" +:+ name data +:+ ">") in
  nl +:+ "    " +:+ shortopt data +:+ ", " +:+ longopt data +:+ arg +:+ nl
  +:+ "        " +:+ desc data +:+ nl.

Definition usage_header : string :=
  "Usage: " +:+ PROGRAM +:+ " [option]..." +:+ nl +:+ nl +:+ "Options:".

Definition usage : string :=
  fold_left (fun out data => out +:+ usage_entry data) m_options usage_header.

(** *** Parsing *)

Definition parse_option (opt : string) : M (option_t * string) :=
  match find_option opt with
  | None => exit 1%Z "" (PROGRAM +:+ ": Invalid option '" +:+ opt +:+ "'" +:+ nl)
  | Some d => mret (d, opt)
  end.

Definition parse_help_option (data : option_t) : M unit :=
  if String.eqb (longopt data) "--help" || String.eqb (shortopt data) "-?"
  then exit 0%Z usage ""
  else mret tt.

Definition parse_short_argument (argv : list string) (argp : nat)
  : M (nat * string) :=
  match deref argv (S argp) with
  | Outside => fail out_of_bounds
  | Null => mret (argp, "")
  | Tok next =>
      if negb (is_option next) then mret (S argp, next) else mret (argp, "")
  end.

(** Returns the cursor, the key and the value. *)
Definition parse_long_argument (argp : nat) (tok : string)
  : M (nat * string * string) :=
  let value := extract_value tok in
  let key := extract_option tok in
  mret (argp, key, value).

Definition parse_list_argument (tok opt : string) (listflag : bool) : M bool :=
  if listflag then
    if is_option tok then mret false
    else (_ ← set opt tok; mret listflag)
  else mret listflag.

(** The cursor returned is [None] for the [NULL] result. *)
Definition parse_argument (data : option option_t) (argv : list string)
    (argp : nat) (listflag : bool) : M (option nat * bool) :=
  match deref argv argp with
  | Outside => fail out_of_bounds
  | Null => fail null_string
  | Tok tok =>
      let key := tok in
      match data with
      | None => mret (None, listflag)
      | Some d =>
          match argument d with
          | no_argument =>
              _ ← parse_help_option d ; mret (Some argp, listflag)
          | list_argument =>
              let listflag := true in
              match deref argv (S argp) with
              | Outside => fail out_of_bounds
              | Null =>
                  exit 1%Z ""
                    (PROGRAM +:+ ": No argument after option '" +:+ tok
                     +:+ "' with list_argument type." +:+ nl)
              | Tok _ => mret (Some argp, listflag)
              end
          | optional_argument | required_argument =>
              '(argp', key, value) ←
                (if is_long_option_of data key
                 then parse_long_argument argp tok
                 else if is_short_option_of data key
                 then '(argp', value) ← parse_short_argument argv argp ;
                      mret (argp', key, value)
                 else exit 1%Z ""
                        (PROGRAM +:+ ": Unable to determine if '" +:+ tok
                         +:+ "' is a long or short option." +:+ nl)) ;
              _ ← set key value ;
              mret (Some argp', listflag)
          end
      end
  end.

(** The body of the [for] loop of [parse], from its test on. *)
Fixpoint parse_loop (fuel : nat) (argv : list string) (argp : nat)
    (opt : string) (listflag : bool) : M unit :=
  match fuel with
  | 0 => out_of_fuel
  | S fuel =>
      match deref argv argp with
      | Outside => fail out_of_bounds
      | Null => mret tt
      | Tok tok =>
          listflag ← parse_list_argument tok opt listflag ;
          if (listflag : bool) then parse_loop fuel argv (S argp) opt listflag
          else
            '(data, opt) ← parse_option tok ;
            '(argp', listflag) ← parse_argument (Some data) argv argp listflag ;
            match argp' with
            | None => fail null_pointer
            | Some argp => parse_loop fuel argv (S argp) opt listflag
            end
      end
  end.

Definition parse (argv : list string) : M unit :=
  let argp := 1 in
  match deref argv argp with
  | Outside => fail out_of_bounds
  | Null => fail null_string
  | Tok opt => parse_loop (length argv) argv argp opt false
  end.

End engine.

End commandline.

Import cxx commandline.

#[local] Arguments String.append !s1 s2 : simpl nomatch.

(** ** Notions of the specification *)

(** [p] holds no occurrence of the character [c]. *)
Definition free_of (c : ascii) (p : string) : Prop :=
  ∀ q r, p ≠ q +:+ String c r.

(** [tok] is [p] once any [=value] suffix is stripped: [p] is the part of
    [tok] before its first ['=']. *)
Definition value_stripped (tok p : string) : Prop :=
  free_of "=" p ∧ (tok = p ∨ ∃ v, tok = p +:+ "=" +:+ v).

(** The matching rule of the catalog lookup. *)
Definition matches (d : option_t) (tok : string) : Prop :=
  tok = shortopt d ∨ tok = longopt d ∨ value_stripped tok (longopt d).

(** The canonical key of a descriptor: the long form without its leading
    double dash, or, when there is no long form, the short form without its
    leading dash. *)
Definition canonical_key (d : option_t) (k : string) : Prop :=
  if empty (longopt d) then shortopt d = "-" +:+ k
  else longopt d = "--" +:+ k.

(** A spelling that begins with a dash, and one that begins with two. *)
Definition dashed (s : string) : bool := Ascii.eqb (at0 s) "-".

Definition double_dashed (s : string) : bool := dashed s && dashed (erase0 s).

(** The shape of a descriptor in the data model: a long form is a double
    dash followed by a name (which holds no ['=']), a short form is a single
    dash followed by a name, and at least one of the two is present. *)
Definition wf_option (d : option_t) : bool :=
  (empty (longopt d)
   || double_dashed (longopt d) && negb (contains "=" (longopt d)))
  && (empty (shortopt d)
      || dashed (shortopt d) && negb (double_dashed (shortopt d)))
  && negb (empty (shortopt d) && empty (longopt d)).

(** Two descriptors collide when they share a short or a long spelling. *)
Definition collide (d d' : option_t) : bool :=
  negb (empty (shortopt d)) && String.eqb (shortopt d) (shortopt d')
  || negb (empty (longopt d)) && String.eqb (longopt d) (longopt d').

Fixpoint collision_free (opts : optlist_t) : bool :=
  match opts with
  | [] => true
  | d :: rest => forallb (fun d' => negb (collide d d')) rest && collision_free rest
  end.

Definition wf_catalog (opts : optlist_t) : bool :=
  forallb wf_option opts && collision_free opts.

(** The two arities that take one value; the engine treats them alike. *)
Definition takes_value (d : option_t) : Prop :=
  argument d = required_argument ∨ argument d = optional_argument.

(** No read of the run left the argument vector, and the loop had the
    iterations it needed. *)
Definition in_bounds {A} (o : outcome A) : Prop :=
  match o with
  | Fault _ | OutOfFuel => False
  | _ => True
  end.

(** A catalog used to run the engine on concrete command lines. *)
Definition opt_verbose : option_t :=
  mk_option "-v" "--verbose" "" no_argument "Be verbose".

Definition opt_output : option_t :=
  mk_option "-o" "--output" "file" required_argument "Output file".

Definition opt_tags : option_t :=
  mk_option "" "--tags" "tag" list_argument "Tags".

Definition opt_help : option_t :=
  mk_option "-h" "--help" "" no_argument "Show this help".

Definition demo_catalog : optlist_t :=
  [opt_verbose; opt_output; opt_tags; opt_help].

(** *** Notions for the table and the outcomes of a run *)

(** The shape of every table that [set] builds: the empty string is no key
    and no recorded sequence is empty. *)
Definition table_ok (t : keyval_t) : Prop :=
  ∀ k vs, t !! k = Some vs → k ≠ "" ∧ vs ≠ [].

(** [t'] keeps every sequence of [t] as a prefix of its own. *)
Definition extends (t t' : keyval_t) : Prop :=
  ∀ k vs, t !! k = Some vs → ∃ ws, t' !! k = Some (vs ++ ws).

(** One insertion: a value appended under the non-empty key of a catalog
    descriptor. *)
Definition stores (cat : optlist_t) (t t' : keyval_t) : Prop :=
  ∃ d k v, d ∈ cat ∧ key_of (Some d) = Value k ∧ k ≠ "" ∧ t' = push_back k v t.

(** The two ways the engine ends the process: usage on the output stream
    with status 0, or a diagnostic prefixed by the program name on the error
    stream with status 1. *)
Definition exit_ok (PROGRAM : string) (cat : optlist_t)
    (c : Z) (out err : string) : Prop :=
  (c = 0%Z ∧ out = usage PROGRAM cat ∧ err = "")
  ∨ (c = 1%Z ∧ out = "" ∧ ∃ msg, err = PROGRAM +:+ ": " +:+ msg).

(** What a call started on table [t] may end in. *)
Definition post {A} (PROGRAM : string) (cat : optlist_t) (t : keyval_t)
    (o : outcome A) : Prop :=
  match o with
  | Ret _ t' => rtc (stores cat) t t'
  | Exit c out err t' => rtc (stores cat) t t' ∧ exit_ok PROGRAM cat c out err
  | Throw => ∃ d, d ∈ cat ∧ String.length (longopt d) = 1
  | Fault _ | OutOfFuel => True
  end.


(** A catalog with a long form of one character. *)
Definition odd_catalog : optlist_t :=
  [mk_option "-x" "y" "" required_argument "Long form without dashes"].

(** A catalog whose only descriptor has no long form. *)
Definition quiet_catalog : optlist_t :=
  [mk_option "-q" "" "" no_argument "Be quiet"].

Ltac run :=
  unfold mbind, M_bind, bind, mret, M_ret, ret, lift, exit, fail, out_of_fuel
    in *.

(** ** Strings *)

Section strings.

Lemma length_app (p q : string) :
  String.length (p +:+ q) = String.length p + String.length q.
Proof. induction p as [|a p IH]; simpl; [done | by rewrite IH]. Qed.

Lemma app_empty_r (p : string) : p +:+ "" = p.
Proof. induction p as [|a p IH]; simpl; [done | by rewrite IH]. Qed.

Lemma app_assoc (p q r : string) : (p +:+ q) +:+ r = p +:+ (q +:+ r).
Proof. induction p as [|a p IH]; simpl; [done | by rewrite IH]. Qed.

Lemma app_inv_head (p q r : string) : p +:+ q = p +:+ r → q = r.
Proof. induction p as [|a p IH]; simpl; [done | intros [=]; auto]. Qed.

Lemma substring_all (s : string) : String.substring 0 (String.length s) s = s.
Proof. induction s as [|a s IH]; simpl; [done | by rewrite IH]. Qed.

Lemma substring_app_l (p q : string) :
  String.substring 0 (String.length p) (p +:+ q) = p.
Proof.
  induction p as [|a p IH]; simpl; [by destruct q | by rewrite IH].
Qed.

Lemma substring_app_r (p q : string) :
  String.substring (String.length p) (String.length q) (p +:+ q) = q.
Proof. induction p as [|a p IH]; simpl; [apply substring_all | done]. Qed.

Lemma scan_le (c : ascii) (s : string) : scan c s ≤ String.length s.
Proof.
  induction s as [|a s IH]; simpl; [lia |].
  destruct (Ascii.eqb a c); lia.
Qed.

Lemma contains_false_scan (c : ascii) (s : string) :
  contains c s = false ↔ scan c s = String.length s.
Proof.
  unfold contains. pose proof (scan_le c s).
  rewrite Nat.ltb_ge. lia.
Qed.

Lemma contains_false_free (c : ascii) (s : string) :
  contains c s = false ↔ free_of c s.
Proof.
  rewrite contains_false_scan. unfold free_of.
  induction s as [|a s IH]; simpl.
  - split; [|done]. intros _ [|b q] r; simpl; discriminate.
  - destruct (Ascii.eqb_spec a c) as [->|Hne].
    + split; [lia |]. intros H. by destruct (H "" s).
    + split.
      * intros [= Hs] [|b q] r; simpl; intros [= ? ?]; [done |].
        subst. by eapply (proj1 IH).
      * intros H. f_equal. apply IH. intros q r ->.
        by apply (H (String a q) r).
Qed.

Lemma scan_app (c : ascii) (p v : string) :
  contains c p = false → scan c (p +:+ String c v) = String.length p.
Proof.
  rewrite contains_false_scan.
  induction p as [|a p IH]; simpl.
  - by rewrite Ascii.eqb_refl.
  - destruct (Ascii.eqb a c); [lia |]. intros [= H]. by rewrite IH.
Qed.

Lemma contains_app (c : ascii) (p v : string) :
  contains c (p +:+ String c v) = true.
Proof.
  unfold contains. apply Nat.ltb_lt.
  induction p as [|a p IH]; simpl.
  - rewrite Ascii.eqb_refl. lia.
  - destruct (Ascii.eqb a c); lia.
Qed.

(** A string that holds [c] splits at its first occurrence. *)
Lemma contains_split (c : ascii) (s : string) :
  contains c s = true →
  ∃ p v, s = p +:+ String c v ∧ contains c p = false.
Proof.
  unfold contains. induction s as [|a s IH]; simpl; [done |].
  destruct (Ascii.eqb_spec a c) as [->|Hne].
  - intros _. by exists "", s.
  - intros H. destruct IH as (p & v & -> & Hp).
    { apply Nat.ltb_lt. apply Nat.ltb_lt in H. lia. }
    exists (String a p), v. split; [done |].
    apply Nat.ltb_ge. apply Nat.ltb_ge in Hp. simpl.
    destruct (Ascii.eqb_spec a c); [done | lia].
Qed.

Lemma empty_true (s : string) : empty s = true ↔ s = "".
Proof. by destruct s. Qed.

Lemma empty_false (s : string) : empty s = false ↔ s ≠ "".
Proof. by destruct s. Qed.

Lemma substr_app (p k : string) :
  substr (p +:+ k) (String.length p) = Value k.
Proof.
  unfold substr. rewrite length_app.
  destruct (Nat.leb_spec (String.length p) (String.length p + String.length k));
    [| lia].
  replace (String.length p + String.length k - String.length p)
    with (String.length k) by lia.
  by rewrite substring_app_r.
Qed.

End strings.

(** ** [extract] *)

Section extract.

Lemma extract_option_plain (tok : string) :
  contains "=" tok = false → extract_option tok = tok.
Proof. unfold extract_option, extract. by intros ->. Qed.

Lemma extract_value_plain (tok : string) :
  contains "=" tok = false → extract_value tok = "".
Proof. unfold extract_value, extract. by intros ->. Qed.

Lemma extract_option_eq (p v : string) :
  contains "=" p = false → extract_option (p +:+ "=" +:+ v) = p.
Proof.
  intros Hp. unfold extract_option, extract; simpl.
  rewrite contains_app; simpl. rewrite scan_app by done.
  apply substring_app_l.
Qed.

Lemma extract_value_eq (p v : string) :
  contains "=" p = false → extract_value (p +:+ "=" +:+ v) = v.
Proof.
  intros Hp. unfold extract_value, extract; simpl.
  rewrite contains_app; simpl. rewrite scan_app by done.
  unfold substr_n. rewrite length_app; simpl.
  replace (String.length p + S (String.length v) - S (String.length p))
    with (String.length v) by lia.
  change (S (String.length p)) with (String.length (String "=" p)) at 1.
  replace (p +:+ String "=" v) with ((p +:+ "=") +:+ v)
    by (by rewrite app_assoc).
  replace (String.length (String "=" p)) with (String.length (p +:+ "="))
    by (rewrite length_app; simpl; lia).
  apply substring_app_r.
Qed.

(** Both [substr] calls of [extract] are in range. *)
Lemma extract_in_range (tok : string) :
  contains "=" tok = true → S (scan "=" tok) ≤ String.length tok.
Proof. unfold contains. intros H%Nat.ltb_lt. lia. Qed.

Lemma extract_option_stripped (tok p : string) :
  extract_option tok = p ↔ value_stripped tok p.
Proof.
  unfold value_stripped. split.
  - intros <-. destruct (contains "=" tok) eqn:Htok.
    + destruct (contains_split _ _ Htok) as (p & v & -> & Hp).
      change (p +:+ String "=" v) with (p +:+ "=" +:+ v).
      rewrite extract_option_eq by done.
      split; [by apply contains_false_free | right; by exists v].
    + rewrite extract_option_plain by done.
      split; [by apply contains_false_free | by left].
  - intros [Hp%contains_false_free [-> | [v ->]]].
    + by apply extract_option_plain.
    + by apply extract_option_eq.
Qed.

End extract.

(** ** Catalog lookup *)

Section lookup.

Variable PROGRAM : string.
Variable cat : optlist_t.

Lemma is_option_of_matches (d : option_t) (tok : string) :
  is_option_of (Some d) tok = true ↔ matches d tok.
Proof.
  unfold is_option_of, matches; simpl.
  rewrite !orb_true_iff, !String.eqb_eq, extract_option_stripped.
  tauto.
Qed.

Lemma find_in_Some (opts : optlist_t) (tok : string) (d : option_t) :
  find_in opts tok = Some d → d ∈ opts ∧ is_option_of (Some d) tok = true.
Proof.
  induction opts as [|d' opts IH]; simpl; [done |].
  destruct (is_option_of (Some d') tok) eqn:Hd'.
  - intros [= <-]. split; [left | done].
  - intros [Hin Hd]%IH. split; [by right | done].
Qed.

Lemma find_in_None (opts : optlist_t) (tok : string) :
  find_in opts tok = None ↔
  ∀ d, d ∈ opts → is_option_of (Some d) tok = false.
Proof.
  induction opts as [|d' opts IH]; simpl.
  - split; [|done]. intros _ d Hd. by apply elem_of_nil in Hd.
  - destruct (is_option_of (Some d') tok) eqn:Hd'.
    + split; [done |]. intros H. specialize (H d' ltac:(left)). congruence.
    + rewrite IH. split.
      * intros H d [-> | Hd]%elem_of_cons; auto.
      * intros H d Hd. apply H. by right.
Qed.

(** The first descriptor that matches is the one returned. *)
Lemma find_in_first (pre post : optlist_t) (d : option_t) (tok : string) :
  (∀ d', d' ∈ pre → is_option_of (Some d') tok = false) →
  is_option_of (Some d) tok = true →
  find_in (pre ++ d :: post) tok = Some d.
Proof.
  intros Hpre Hd. induction pre as [|d' pre IH]; simpl.
  - by rewrite Hd.
  - rewrite (Hpre d') by left. apply IH. intros d'' H. apply Hpre. by right.
Qed.

Lemma find_option_Some (tok : string) (d : option_t) :
  find_option cat tok = Some d → d ∈ cat ∧ matches d tok.
Proof.
  intros [Hin Hd]%find_in_Some. by rewrite <- is_option_of_matches.
Qed.

Lemma find_option_is_Some (tok : string) :
  is_Some (find_option cat tok) ↔ ∃ d, d ∈ cat ∧ matches d tok.
Proof.
  split.
  - intros [d Hd]. exists d. by apply find_option_Some.
  - intros (d & Hin & Hd%is_option_of_matches).
    destruct (find_option cat tok) eqn:Hf; [done |].
    unfold find_option in Hf. rewrite find_in_None in Hf.
    rewrite (Hf d Hin) in Hd. done.
Qed.

(** [is_option(std::string)] holds exactly when [find_option] succeeds. *)
Lemma is_option_find (tok : string) :
  is_option cat tok = true ↔ is_Some (find_option cat tok).
Proof.
  unfold is_option, is_short_option, is_long_option.
  destruct (find_option cat tok) as [d|] eqn:Hf; simpl.
  - apply find_in_Some in Hf as [_ Hd].
    unfold is_option_of in Hd; simpl in Hd. rewrite Hd. by split.
  - split; [done | by intros [? ?]].
Qed.

Lemma is_option_false (tok : string) :
  is_option cat tok = false ↔ find_option cat tok = None.
Proof.
  rewrite <- not_true_iff_false, is_option_find, <- eq_None_not_Some. done.
Qed.

Lemma deref_Tok (argv : list string) (argp : nat) (tok : string) :
  argv !! argp = Some tok → deref argv argp = Tok tok.
Proof. unfold deref. by intros ->. Qed.

Lemma deref_Null (argv : list string) : deref argv (length argv) = Null.
Proof.
  unfold deref. rewrite lookup_ge_None_2 by lia. by rewrite Nat.eqb_refl.
Qed.

(** C7. A token matches a catalog descriptor exactly when it equals the
    descriptor's short form, equals its long form, or equals the long form
    once its [=value] suffix is stripped; [find_option] returns such a
    descriptor whenever one exists. A token that the scan reaches outside
    list mode and that matches no descriptor ends the process with status 1
    after the diagnostic "PROGRAM: Invalid option 'token'" on the error
    stream. *)
Theorem find_option_matching_rule (tok : string) :
  (∀ d, find_option cat tok = Some d → d ∈ cat ∧ matches d tok) ∧
  (is_Some (find_option cat tok) ↔ ∃ d, d ∈ cat ∧ matches d tok) ∧
  (find_option cat tok = None →
   ∀ fuel argv argp opt t,
     argv !! argp = Some tok →
     parse_loop PROGRAM cat (S fuel) argv argp opt false t
     = Exit 1%Z "" (PROGRAM +:+ ": Invalid option '" +:+ tok +:+ "'" +:+ nl) t).
Proof.
  split; [apply find_option_Some |].
  split; [apply find_option_is_Some |].
  intros Hnone fuel argv argp opt t Hargp. simpl.
  rewrite (deref_Tok _ _ _ Hargp).
  unfold parse_list_argument, parse_option. rewrite Hnone. by run.
Qed.

End lookup.

(** ** The result table: [set], [has], [get] *)

Section table.

Variable cat : optlist_t.

Lemma lookup_push_back (k v : string) (t : keyval_t) :
  push_back k v t !! k = Some (default [] (t !! k) ++ [v]).
Proof. unfold push_back. by rewrite lookup_insert_eq. Qed.

Lemma lookup_push_back_ne (k k' v : string) (t : keyval_t) :
  k' ≠ k → push_back k v t !! k' = t !! k'.
Proof. intros H. unfold push_back. by rewrite lookup_insert_ne. Qed.

Lemma key_of_canonical (d : option_t) (k : string) :
  canonical_key d k → key_of (Some d) = Value k.
Proof.
  unfold canonical_key, key_of.
  destruct (empty (longopt d)) eqn:Hl; simpl.
  - intros ->. simpl. apply (substr_app "-").
  - intros ->. apply (substr_app "--").
Qed.

Lemma to_key_unresolved (K : string) :
  resolve cat K = None → to_key cat K = Value "".
Proof. unfold to_key. by intros ->. Qed.

Lemma set_failure (K V : string) (t : keyval_t) :
  to_key cat K = Value "" → set cat K V t = Ret (-1)%Z t.
Proof. unfold set. run. by intros ->. Qed.

Lemma set_success (K V k : string) (t : keyval_t) :
  to_key cat K = Value k → k ≠ "" →
  set cat K V t = Ret 0%Z (push_back k V t).
Proof.
  unfold set. run. intros -> Hk%empty_false. by rewrite Hk.
Qed.

Lemma has_spec (K k : string) (t : keyval_t) :
  to_key cat K = Value k →
  has cat K t = Ret (bool_decide (is_Some (t !! k))) t.
Proof. unfold has. run. by intros ->. Qed.

Lemma get_first (K k v : string) (vs : list string) (t : keyval_t) :
  to_key cat K = Value k → t !! k = Some (v :: vs) →
  get cat K t = Ret v t.
Proof.
  intros HK Hk. unfold get. run. rewrite (has_spec _ _ _ HK).
  rewrite bool_decide_eq_true_2 by (by rewrite Hk).
  rewrite HK. unfold table_at0. by rewrite Hk.
Qed.

Lemma get_absent (K k : string) (t : keyval_t) :
  to_key cat K = Value k → t !! k = None → get cat K t = Ret "" t.
Proof.
  intros HK Hk. unfold get. run. rewrite (has_spec _ _ _ HK).
  rewrite bool_decide_eq_false_2; [done |]. rewrite Hk. by intros [? ?].
Qed.

(** A value pushed under a fresh key is the one [get] returns. *)
Lemma get_push_back_fresh (K k v : string) (t : keyval_t) :
  to_key cat K = Value k → t !! k = None →
  get cat K (push_back k v t) = Ret v (push_back k v t).
Proof.
  intros HK Hk. apply (get_first K k v []); [done |].
  by rewrite lookup_push_back, Hk.
Qed.

(** C9. [set(K, V)] on a spelling that denotes no catalog descriptor (or
    whose key comes out empty) returns -1 and leaves the table as it was;
    on a spelling that denotes a descriptor with canonical key [k] it
    returns 0 and appends [V] to the value sequence of [k], creating the
    sequence when absent and touching no other key. *)
Theorem set_reports (K V : string) (t : keyval_t) :
  (resolve cat K = None → set cat K V t = Ret (-1)%Z t) ∧
  (to_key cat K = Value "" → set cat K V t = Ret (-1)%Z t) ∧
  (∀ d k, resolve cat K = Some d → canonical_key d k → k ≠ "" →
     set cat K V t = Ret 0%Z (push_back k V t) ∧
     push_back k V t !! k = Some (default [] (t !! k) ++ [V]) ∧
     ∀ k', k' ≠ k → push_back k V t !! k' = t !! k').
Proof.
  split; [intros H; by apply set_failure, to_key_unresolved |].
  split; [apply set_failure |].
  intros d k Hd Hk Hne. split; [| split].
  - apply set_success; [| done].
    unfold to_key. rewrite Hd. by apply key_of_canonical.
  - apply lookup_push_back.
  - intros k' Hk'. by apply lookup_push_back_ne.
Qed.

End table.

(** ** Well-formed catalogs *)

Section wellformed.

Lemma prefix_dash (s : string) :
  dashed s = true → ∃ k, s = "-" +:+ k.
Proof.
  destruct s as [|a s]; unfold dashed; simpl; [done |].
  intros ->%Ascii.eqb_eq. by exists s.
Qed.

Lemma prefix_dashes (s : string) :
  double_dashed s = true → ∃ k, s = "--" +:+ k.
Proof.
  unfold double_dashed. intros [[k ->]%prefix_dash H]%andb_true_iff.
  simpl in H. apply prefix_dash in H as [k' ->]. by exists k'.
Qed.

Lemma prefix_dashes_app (s r : string) :
  double_dashed s = true → double_dashed (s +:+ r) = true.
Proof. by intros [k ->]%prefix_dashes. Qed.

Lemma wf_option_long (d : option_t) :
  wf_option d = true → longopt d ≠ "" →
  double_dashed (longopt d) = true ∧ contains "=" (longopt d) = false.
Proof.
  intros H Hne%empty_false.
  apply andb_true_iff in H as [[H _]%andb_true_iff _].
  rewrite Hne in H. simpl in H.
  by destruct (double_dashed (longopt d)), (contains "=" (longopt d)).
Qed.

Lemma wf_option_short (d : option_t) :
  wf_option d = true → shortopt d ≠ "" →
  dashed (shortopt d) = true ∧ double_dashed (shortopt d) = false.
Proof.
  intros H Hne%empty_false.
  apply andb_true_iff in H as [[_ H]%andb_true_iff _].
  rewrite Hne in H. simpl in H.
  by destruct (dashed (shortopt d)), (double_dashed (shortopt d)).
Qed.

Lemma wf_option_some (d : option_t) :
  wf_option d = true → longopt d = "" → shortopt d ≠ "".
Proof.
  intros H Hl. apply andb_true_iff in H as [_ H].
  rewrite Hl in H. simpl in H. rewrite andb_true_r in H.
  by apply empty_false, negb_true_iff.
Qed.

Lemma wf_canonical_key (d : option_t) :
  wf_option d = true → ∃ k, canonical_key d k.
Proof.
  intros Hwf. unfold canonical_key.
  destruct (empty (longopt d)) eqn:Hl.
  - apply empty_true in Hl.
    pose proof (wf_option_some d Hwf Hl) as Hs.
    destruct (wf_option_short d Hwf Hs) as [Hp _]. by apply prefix_dash.
  - apply empty_false in Hl.
    destruct (wf_option_long d Hwf Hl) as [Hp _]. by apply prefix_dashes.
Qed.

(** In a well-formed catalog no descriptor matches a different
    descriptor's long form, with or without an attached value. *)
Lemma wf_no_match_long (d d' : option_t) (tok : string) :
  wf_option d = true → wf_option d' = true →
  longopt d ≠ "" → collide d' d = false →
  value_stripped tok (longopt d) →
  is_option_of (Some d') tok = false.
Proof.
  intros Hwf Hwf' Hl Hcol [Hfree Htok].
  destruct (wf_option_long d Hwf Hl) as [Hp He].
  assert (Hx : extract_option tok = longopt d).
  { apply extract_option_stripped. by split. }
  assert (Htp : double_dashed tok = true).
  { destruct Htok as [-> | [v ->]]; [done | by apply prefix_dashes_app]. }
  apply not_true_iff_false. rewrite is_option_of_matches.
  unfold collide in Hcol. apply orb_false_iff in Hcol as [_ Hcl].
  intros [Hs | [Hlo | Hst]].
  - destruct (decide (shortopt d' = "")) as [Hes | Hes].
    + rewrite Hes in Hs. subst tok. done.
    + destruct (wf_option_short d' Hwf' Hes) as [_ Hn]. congruence.
  - destruct (decide (longopt d' = "")) as [Hel | Hel].
    + rewrite Hel in Hlo. subst tok. done.
    + destruct (wf_option_long d' Hwf' Hel) as [_ He'].
      subst tok. rewrite extract_option_plain in Hx by done.
      apply empty_false in Hel. rewrite Hel in Hcl. simpl in Hcl.
      apply String.eqb_neq in Hcl. congruence.
  - apply extract_option_stripped in Hst.
    assert (Hel : longopt d' ≠ "") by congruence.
    apply empty_false in Hel. rewrite Hel in Hcl. simpl in Hcl.
    apply String.eqb_neq in Hcl. congruence.
Qed.

(** Nor does any descriptor match a different descriptor's short form. *)
Lemma wf_no_match_short (d d' : option_t) :
  wf_option d = true → wf_option d' = true →
  shortopt d ≠ "" → collide d' d = false →
  is_option_of (Some d') (shortopt d) = false.
Proof.
  intros Hwf Hwf' Hs Hcol.
  destruct (wf_option_short d Hwf Hs) as [Hp Hn].
  apply not_true_iff_false. rewrite is_option_of_matches.
  unfold collide in Hcol. apply orb_false_iff in Hcol as [Hcs _].
  assert (Hlong : ∀ r, shortopt d = longopt d' +:+ r →
                       longopt d' = "" ∧ shortopt d = r).
  { intros r Heq. destruct (decide (longopt d' = "")) as [Hel | Hel].
    - rewrite Hel in Heq. done.
    - destruct (wf_option_long d' Hwf' Hel) as [Hp' _].
      rewrite Heq, prefix_dashes_app in Hn; done. }
  intros [Heq | [Heq | [_ [Heq | [v Heq]]]]].
  - assert (Hes : shortopt d' ≠ "") by congruence.
    apply empty_false in Hes. rewrite Hes in Hcs. simpl in Hcs.
    apply String.eqb_neq in Hcs. congruence.
  - destruct (Hlong "") as [H _]; [by rewrite app_empty_r | congruence].
  - destruct (Hlong "") as [H _]; [by rewrite app_empty_r | congruence].
  - destruct (Hlong _ Heq) as [_ H]. rewrite H in Hp. done.
Qed.

Lemma collision_free_split (pre post : optlist_t) (d : option_t) :
  collision_free (pre ++ d :: post) = true →
  ∀ d', d' ∈ pre → collide d' d = false.
Proof.
  induction pre as [|d0 pre IH]; simpl.
  - intros _ d' H. by apply elem_of_nil in H.
  - rewrite andb_true_iff, forallb_forall.
    intros [H0 Hrest] d' [-> | Hin]%elem_of_cons; [| by apply IH].
    apply negb_true_iff, H0, in_or_app. right. by left.
Qed.

Variable cat : optlist_t.
Hypothesis Hwf : wf_catalog cat = true.

Lemma wf_catalog_option (d : option_t) : d ∈ cat → wf_option d = true.
Proof.
  unfold wf_catalog in Hwf. apply andb_true_iff in Hwf as [Hall _].
  rewrite forallb_forall in Hall. intros Hd. by apply Hall, list_elem_of_In.
Qed.

Lemma wf_find_stripped (d : option_t) (tok : string) :
  d ∈ cat → longopt d ≠ "" → value_stripped tok (longopt d) →
  find_option cat tok = Some d.
Proof.
  intros Hd Hl Htok.
  destruct (list_elem_of_split _ _ Hd) as (pre & post & Hcat).
  unfold find_option. rewrite Hcat. apply find_in_first.
  - intros d' Hd'. apply (wf_no_match_long d); try done.
    + by apply wf_catalog_option.
    + apply wf_catalog_option. rewrite Hcat. apply elem_of_app. by left.
    + unfold wf_catalog in Hwf. apply andb_true_iff in Hwf as [_ Hcf].
      rewrite Hcat in Hcf. by apply (collision_free_split pre post).
  - apply is_option_of_matches. by right; right.
Qed.

Lemma wf_find_long (d : option_t) :
  d ∈ cat → longopt d ≠ "" → find_option cat (longopt d) = Some d.
Proof.
  intros Hd Hl. apply wf_find_stripped; try done.
  destruct (wf_option_long d (wf_catalog_option d Hd) Hl) as [_ He].
  split; [by apply contains_false_free | by left].
Qed.

Lemma wf_find_long_value (d : option_t) (v : string) :
  d ∈ cat → longopt d ≠ "" →
  find_option cat (longopt d +:+ "=" +:+ v) = Some d.
Proof.
  intros Hd Hl. apply wf_find_stripped; try done.
  destruct (wf_option_long d (wf_catalog_option d Hd) Hl) as [_ He].
  split; [by apply contains_false_free | right; by exists v].
Qed.

Lemma wf_find_short (d : option_t) :
  d ∈ cat → shortopt d ≠ "" → find_option cat (shortopt d) = Some d.
Proof.
  intros Hd Hs.
  destruct (list_elem_of_split _ _ Hd) as (pre & post & Hcat).
  unfold find_option. rewrite Hcat. apply find_in_first.
  - intros d' Hd'. apply (wf_no_match_short d); try done.
    + by apply wf_catalog_option.
    + apply wf_catalog_option. rewrite Hcat. apply elem_of_app. by left.
    + unfold wf_catalog in Hwf. apply andb_true_iff in Hwf as [_ Hcf].
      rewrite Hcat in Hcf. by apply (collision_free_split pre post).
  - apply is_option_of_matches. by left.
Qed.

End wellformed.

(** ** Canonical keys *)

Section keys.

Variable cat : optlist_t.

Lemma resolve_dashed (s : string) :
  dashed s = true → resolve cat s = find_option cat s.
Proof. unfold resolve, dashed. by intros ->. Qed.

Lemma resolve_plain (s : string) :
  dashed s = false →
  resolve cat s = match find_option cat ("--" +:+ s) with
                  | Some d => Some d
                  | None => find_option cat ("-" +:+ s)
                  end.
Proof. unfold resolve, dashed. by intros ->. Qed.

Lemma to_key_dashed (s : string) (d : option_t) (k : string) :
  dashed s = true → find_option cat s = Some d → canonical_key d k →
  to_key cat s = Value k.
Proof.
  intros Hs Hd Hk. unfold to_key. rewrite resolve_dashed, Hd by done.
  by apply key_of_canonical.
Qed.

(** What [set] can do to the table once the key of its spelling is known. *)
Lemma set_cases (K v k : string) (t t' : keyval_t) (r : Z) :
  to_key cat K = Value k → set cat K v t = Ret r t' →
  t' = t ∨ t' = push_back k v t.
Proof.
  intros HK. unfold set, table_push_back. run. rewrite HK.
  destruct (empty k); intros [= _ <-]; auto.
Qed.

Hypothesis Hwf : wf_catalog cat = true.

(** The spelling that [parse_argument] hands to [set] for a long-form
    token is the descriptor's long form. *)
Lemma wf_long_spelling (d : option_t) (tok : string) :
  d ∈ cat → dashed tok = true → is_long_option_of (Some d) tok = true →
  longopt d ≠ "" ∧ extract_option tok = longopt d.
Proof.
  intros Hd Htok Hlong. simpl in Hlong.
  apply orb_true_iff in Hlong. rewrite !String.eqb_eq in Hlong.
  assert (Hne : longopt d ≠ "").
  { intros He. rewrite He in Hlong. destruct Hlong as [-> | Hx]; [done |].
    apply extract_option_stripped in Hx as [_ [-> | [v ->]]]; done. }
  split; [done |]. destruct Hlong as [-> | Hx]; [| done].
  apply extract_option_plain.
  by apply (wf_option_long d (wf_catalog_option cat Hwf d Hd)).
Qed.

Lemma wf_storage_key (d : option_t) (k tok : string) :
  d ∈ cat → canonical_key d k →
  find_option cat tok = Some d → dashed tok = true →
  to_key cat tok = Value k
  ∧ (is_long_option_of (Some d) tok = true →
     to_key cat (extract_option tok) = Value k).
Proof.
  intros Hd Hk Hf Htok. split; [by apply (to_key_dashed tok d) |].
  intros Hlong.
  destruct (wf_long_spelling d tok Hd Htok Hlong) as [Hne ->].
  destruct (wf_option_long d (wf_catalog_option cat Hwf d Hd) Hne) as [Hdd _].
  apply (to_key_dashed _ d); [| by apply wf_find_long | done].
  unfold double_dashed in Hdd. by apply andb_true_iff in Hdd as [? _].
Qed.

End keys.

Section keys_parse.

Variable PROGRAM : string.
Variable cat : optlist_t.
Hypothesis Hwf : wf_catalog cat = true.

(** [parse_argument] records the values of a token only under the
    canonical key of the descriptor the token resolves to. *)
Lemma parse_argument_key (d : option_t) (k tok : string)
    (argv : list string) (argp : nat) (lf : bool) (t t' : keyval_t)
    (r : option nat * bool) :
  d ∈ cat → canonical_key d k →
  find_option cat tok = Some d → dashed tok = true →
  argv !! argp = Some tok →
  parse_argument PROGRAM cat (Some d) argv argp lf t = Ret r t' →
  t' = t ∨ ∃ v, t' = push_back k v t.
Proof.
  intros Hd Hk Hf Htok Hargp.
  destruct (wf_storage_key cat Hwf d k tok Hd Hk Hf Htok) as [Hshort Hlong].
  unfold parse_argument. rewrite (deref_Tok _ _ _ Hargp).
  assert (Hvalue : ∀ r,
    ('(argp', key, value) ←
       (if is_long_option_of (Some d) tok
        then parse_long_argument argp tok
        else if is_short_option_of (Some d) tok
        then '(argp', value) ← parse_short_argument cat argv argp;
             mret (argp', tok, value)
        else exit 1%Z ""
               (PROGRAM +:+ ": Unable to determine if '" +:+ tok
                +:+ "' is a long or short option." +:+ nl));
     _ ← set cat key value; mret (Some argp', lf)) t = Ret r t' →
    t' = t ∨ ∃ v, t' = push_back k v t).
  { intros r'. destruct (is_long_option_of (Some d) tok) eqn:Hl.
    - unfold parse_long_argument. run.
      destruct (set cat (extract_option tok) (extract_value tok) t)
        as [z t0| | | |] eqn:Hset; try done.
      intros [= _ <-].
      destruct (set_cases cat _ _ _ _ _ _ (Hlong eq_refl) Hset); eauto.
    - destruct (is_short_option_of (Some d) tok); [| by run].
      unfold parse_short_argument. run.
      destruct (deref argv (S argp)) as [next| |]; try done.
      + destruct (negb (is_option cat next)).
        * destruct (set cat tok next t) as [z t0| | | |] eqn:Hset; try done.
          intros [= _ <-].
          destruct (set_cases cat _ _ _ _ _ _ Hshort Hset); eauto.
        * destruct (set cat tok "" t) as [z t0| | | |] eqn:Hset; try done.
          intros [= _ <-].
          destruct (set_cases cat _ _ _ _ _ _ Hshort Hset); eauto.
      + destruct (set cat tok "" t) as [z t0| | | |] eqn:Hset; try done.
        intros [= _ <-].
        destruct (set_cases cat _ _ _ _ _ _ Hshort Hset); eauto. }
  destruct (argument d); try apply Hvalue.
  - unfold parse_help_option. run.
    destruct (_ || _); [done |]. intros [= _ <-]. by left.
  - run. destruct (deref argv (S argp)); try done. intros [= _ <-]. by left.
Qed.

(** C10. In a well-formed catalog every descriptor [d] has a canonical key
    [k]: its long form is "--" followed by [k], or, when it has no long
    form, its short form is "-" followed by [k]. [to_key] of the long form
    (of the short form when there is no long form) is [k]; every spelling
    that [parse] hands to [set] for a dashed token resolved to [d]
    canonicalizes to [k], so [k] is the only key under which
    [parse_argument] and list collection record values for [d]. A spelling
    with no leading dash is looked up with "--" prefixed, then with "-"
    prefixed, and yields the empty key when both fail. *)
Theorem to_key_round_trip (d : option_t) :
  d ∈ cat →
  ∃ k, canonical_key d k
    ∧ (longopt d ≠ "" → to_key cat (longopt d) = Value k)
    ∧ (longopt d = "" → to_key cat (shortopt d) = Value k)
    ∧ (∀ tok, find_option cat tok = Some d → dashed tok = true →
         to_key cat tok = Value k
         ∧ (is_long_option_of (Some d) tok = true →
            to_key cat (extract_option tok) = Value k))
    ∧ (∀ tok argv argp lf t r t',
         find_option cat tok = Some d → dashed tok = true →
         argv !! argp = Some tok →
         parse_argument PROGRAM cat (Some d) argv argp lf t = Ret r t' →
         t' = t ∨ ∃ v, t' = push_back k v t)
    ∧ (∀ tok v t b t',
         find_option cat tok = Some d → dashed tok = true →
         parse_list_argument cat v tok true t = Ret b t' →
         t' = t ∨ t' = push_back k v t)
    ∧ (∀ s, dashed s = false →
         to_key cat s =
         match find_option cat ("--" +:+ s) with
         | Some d' => key_of (Some d')
         | None => match find_option cat ("-" +:+ s) with
                   | Some d' => key_of (Some d')
                   | None => Value ""
                   end
         end).
Proof.
  intros Hd. pose proof (wf_catalog_option cat Hwf d Hd) as Hwd.
  destruct (wf_canonical_key d Hwd) as [k Hk]. exists k.
  split; [done |]. split; [| split; [| split; [| split; [| split]]]].
  - intros Hl. destruct (wf_option_long d Hwd Hl) as [Hdd _].
    apply (to_key_dashed cat _ d); [| by apply wf_find_long | done].
    unfold double_dashed in Hdd. by apply andb_true_iff in Hdd as [? _].
  - intros Hl. pose proof (wf_option_some d Hwd Hl) as Hs.
    destruct (wf_option_short d Hwd Hs) as [Hds _].
    apply (to_key_dashed cat _ d); [done | by apply wf_find_short | done].
  - intros tok Hf Htok. by apply wf_storage_key.
  - intros tok argv argp lf t r t' Hf Htok Hargp.
    by apply (parse_argument_key d k tok argv argp lf t t' r).
  - intros tok v t b t' Hf Htok. unfold parse_list_argument.
    destruct (is_option cat v); run; [intros [= _ <-]; by left |].
    destruct (set cat tok v t) as [z t0| | | |] eqn:Hset; try done.
    intros [= _ <-]. apply (set_cases cat tok v k t t0 z); [| done].
    by apply (to_key_dashed cat tok d).
  - intros s Hs. unfold to_key. rewrite resolve_plain by done.
    by destruct (find_option cat ("--" +:+ s)), (find_option cat ("-" +:+ s)).
Qed.

End keys_parse.

(** ** The scan *)

Section scan.

Variable PROGRAM : string.
Variable cat : optlist_t.

(** One iteration on a token that resolves to a descriptor: list mode, if
    active, ends, and the token is dispatched on its arity. *)
Lemma parse_loop_option (fuel : nat) (argv : list string) (argp : nat)
    (opt tok : string) (lf : bool) (d : option_t) (t : keyval_t) :
  argv !! argp = Some tok → find_option cat tok = Some d →
  parse_loop PROGRAM cat (S fuel) argv argp opt lf t =
  ('(argp', lf') ← parse_argument PROGRAM cat (Some d) argv argp false;
   match argp' with
   | None => fail null_pointer
   | Some p => parse_loop PROGRAM cat fuel argv (S p) tok lf'
   end) t.
Proof.
  intros Hargp Hf. simpl. rewrite (deref_Tok _ _ _ Hargp).
  assert (Hopt : is_option cat tok = true) by (apply is_option_find; eauto).
  unfold parse_list_argument, parse_option. rewrite Hopt, Hf.
  by destruct lf.
Qed.

(** One iteration in list mode on a token that is no option: the token is
    appended under the key of the list option. *)
Lemma parse_loop_value (fuel : nat) (argv : list string) (argp : nat)
    (opt tok k : string) (t : keyval_t) :
  argv !! argp = Some tok → is_option cat tok = false →
  to_key cat opt = Value k → k ≠ "" →
  parse_loop PROGRAM cat (S fuel) argv argp opt true t =
  parse_loop PROGRAM cat fuel argv (S argp) opt true (push_back k tok t).
Proof.
  intros Hargp Hopt Hk Hne. simpl. rewrite (deref_Tok _ _ _ Hargp).
  unfold parse_list_argument. rewrite Hopt. run.
  by rewrite (set_success cat opt tok k t Hk Hne).
Qed.

Lemma parse_loop_end (fuel : nat) (argv : list string) (opt : string)
    (lf : bool) (t : keyval_t) :
  parse_loop PROGRAM cat (S fuel) argv (length argv) opt lf t = Ret tt t.
Proof. simpl. by rewrite deref_Null. Qed.

(** *** Usage text and the help shortcut *)

Lemma fold_usage (opts : optlist_t) (acc : string) :
  fold_left (fun out data => out +:+ usage_entry data) opts acc
  = acc +:+ String.concat "" (map usage_entry opts).
Proof.
  revert acc. induction opts as [|d opts IH]; intros acc; simpl.
  - by rewrite app_empty_r.
  - rewrite IH, app_assoc. destruct opts as [|d' opts]; simpl; [| done].
    by rewrite app_empty_r.
Qed.

Lemma substring_short (n : nat) (s : string) :
  String.length s ≤ n → String.substring 0 n s = s.
Proof.
  revert n. induction s as [|a s IH]; intros [|n]; simpl; try done; [lia |].
  intros H. rewrite IH; [done | lia].
Qed.

(** The exits of [parse_argument]: status 0 with the usage text for the
    help descriptor of arity [no_argument], status 1 otherwise. *)
Lemma parse_argument_exit (d : option_t) (argv : list string) (argp : nat)
    (lf : bool) (t t' : keyval_t) (c : Z) (o e : string) :
  parse_argument PROGRAM cat (Some d) argv argp lf t = Exit c o e t' →
  (c = 0%Z ∧ argument d = no_argument) ∨ (c = 1%Z ∧ o = "").
Proof.
  unfold parse_argument.
  destruct (deref argv argp) as [tok| |]; try done.
  destruct (argument d) eqn:Harg.
  - unfold parse_help_option. run.
    destruct (_ || _); [| done]. intros [= <- _ _ _]. by left.
  - destruct (is_long_option_of (Some d) tok).
    + unfold parse_long_argument, set, table_push_back. run.
      destruct (to_key cat (extract_option tok)) as [k|]; [| done].
      by destruct (empty k).
    + destruct (is_short_option_of (Some d) tok);
        [| run; intros [= <- <- _ _]; by right].
      unfold parse_short_argument, set, table_push_back. run.
      destruct (deref argv (S argp)) as [next| |]; try done;
        try destruct (negb (is_option cat next));
        destruct (to_key cat tok) as [k|]; try done; by destruct (empty k).
  - destruct (is_long_option_of (Some d) tok).
    + unfold parse_long_argument, set, table_push_back. run.
      destruct (to_key cat (extract_option tok)) as [k|]; [| done].
      by destruct (empty k).
    + destruct (is_short_option_of (Some d) tok);
        [| run; intros [= <- <- _ _]; by right].
      unfold parse_short_argument, set, table_push_back. run.
      destruct (deref argv (S argp)) as [next| |]; try done;
        try destruct (negb (is_option cat next));
        destruct (to_key cat tok) as [k|]; try done; by destruct (empty k).
  - run. destruct (deref argv (S argp)); try done.
    intros [= <- <- _ _]. by right.
Qed.

(** C8. When the scan resolves a token to a descriptor of arity
    [no_argument] whose long form is "--help" or whose short form is "-?",
    the process ends with status 0 after the usage text on the output
    stream, and the table at that point is the table before the token: no
    presence was recorded. The usage text is the header followed by one
    entry per descriptor in catalog order, each with the short form, the
    long form, the "=<name>" placeholder (when the descriptor names an
    argument) and the description. For any other arity [parse_argument]
    never ends the process with status 0. *)
Theorem help_shortcut (d : option_t) (tok : string) :
  find_option cat tok = Some d →
  (argument d = no_argument →
   longopt d = "--help" ∨ shortopt d = "-?" →
   ∀ fuel argv argp opt lf t,
     argv !! argp = Some tok →
     parse_loop PROGRAM cat (S fuel) argv argp opt lf t
     = Exit 0%Z (usage PROGRAM cat) "" t)
  ∧ usage PROGRAM cat
    = usage_header PROGRAM +:+ String.concat "" (map usage_entry cat)
  ∧ (∀ d', String.length (name d') ≤ 28 →
       usage_entry d'
       = nl +:+ "    " +:+ shortopt d' +:+ ", " +:+ longopt d'
         +:+ (if empty (name d') then "" else "=<" +:+ name d' +:+ ">")
         +:+ nl +:+ "        " +:+ desc d' +:+ nl)
  ∧ (argument d ≠ no_argument →
     ∀ argv argp lf t o e t',
       parse_argument PROGRAM cat (Some d) argv argp lf t ≠ Exit 0%Z o e t').
Proof.
  intros Hf. split; [| split; [| split]].
  - intros Harg Hhelp fuel argv argp opt lf t Hargp.
    rewrite (parse_loop_option fuel argv argp opt tok lf d t Hargp Hf).
    unfold parse_argument. rewrite (deref_Tok _ _ _ Hargp), Harg.
    unfold parse_help_option.
    replace (_ || _) with true; [by run |].
    symmetry. apply orb_true_iff. rewrite !String.eqb_eq. done.
  - apply fold_usage.
  - intros d' Hlen. unfold usage_entry, snprintf, kArgumentNameLength.
    destruct (empty (name d')); [done |].
    rewrite substring_short; [done |].
    rewrite !length_app. simpl. lia.
  - intros Harg argv argp lf t o e t' Hexit.
    apply parse_argument_exit in Hexit as [[_ ?] | [? _]]; done.
Qed.

(** C6. A list-arity option token with no token after it ends the process
    with status 1, after the diagnostic naming the program and the token on
    the error stream; [parse] returns no table. *)
Theorem list_argument_missing (d : option_t) (tok : string) :
  find_option cat tok = Some d → argument d = list_argument →
  ∀ fuel argv argp opt lf t,
    argv !! argp = Some tok → S argp = length argv →
    parse_loop PROGRAM cat (S fuel) argv argp opt lf t
    = Exit 1%Z ""
        (PROGRAM +:+ ": No argument after option '" +:+ tok
         +:+ "' with list_argument type." +:+ nl) t.
Proof.
  intros Hf Harg fuel argv argp opt lf t Hargp Hlast.
  rewrite (parse_loop_option fuel argv argp opt tok lf d t Hargp Hf).
  unfold parse_argument. rewrite (deref_Tok _ _ _ Hargp), Harg, Hlast.
  rewrite deref_Null. by run.
Qed.

(** A descriptor of arity [no_argument] that is not the help descriptor
    leaves the table as it was: [parse_argument] returns before [set]. *)
Lemma no_argument_unrecorded (d : option_t) (tok : string)
    (argv : list string) (argp : nat) (lf : bool) (t : keyval_t) :
  argv !! argp = Some tok → argument d = no_argument →
  longopt d ≠ "--help" → shortopt d ≠ "-?" →
  parse_argument PROGRAM cat (Some d) argv argp lf t = Ret (Some argp, lf) t.
Proof.
  intros Hargp Harg Hl Hs. unfold parse_argument.
  rewrite (deref_Tok _ _ _ Hargp), Harg. unfold parse_help_option.
  apply String.eqb_neq in Hl, Hs. rewrite Hl, Hs. by run.
Qed.

End scan.

(** ** Options that take one value *)

Section values.

Variable PROGRAM : string.
Variable cat : optlist_t.

(** The dispatch of [parse_argument] for the two one-value arities. *)
Lemma parse_argument_value (d : option_t) (tok : string)
    (argv : list string) (argp : nat) (lf : bool) :
  takes_value d → argv !! argp = Some tok →
  parse_argument PROGRAM cat (Some d) argv argp lf =
  ('(argp', key, value) ←
     (if is_long_option_of (Some d) tok
      then parse_long_argument argp tok
      else if is_short_option_of (Some d) tok
      then '(argp', value) ← parse_short_argument cat argv argp;
           mret (argp', tok, value)
      else exit 1%Z ""
             (PROGRAM +:+ ": Unable to determine if '" +:+ tok
              +:+ "' is a long or short option." +:+ nl));
   _ ← set cat key value; mret (Some argp', lf)).
Proof.
  intros Harg Hargp. unfold parse_argument.
  rewrite (deref_Tok _ _ _ Hargp). by destruct Harg as [-> | ->].
Qed.

(** C4. A one-value option recognized by its short form takes the next
    token as its value when that token matches no catalog descriptor: the
    value is appended under the option's key, the scan resumes after the
    value, and [get] of the short spelling returns it when it is the first
    value of the key. When the next token is itself a recognized option the
    value recorded is the empty string and the scan resumes at that token,
    which is not consumed. *)
Theorem short_argument_value (d : option_t) (tok k : string) :
  find_option cat tok = Some d → takes_value d →
  tok = shortopt d → is_long_option_of (Some d) tok = false →
  to_key cat tok = Value k → k ≠ "" →
  ∀ fuel argv argp opt lf t next,
    argv !! argp = Some tok → argv !! S argp = Some next →
    (find_option cat next = None →
       parse_loop PROGRAM cat (S fuel) argv argp opt lf t
       = parse_loop PROGRAM cat fuel argv (S (S argp)) tok false
           (push_back k next t)
       ∧ (t !! k = None →
          get cat tok (push_back k next t) = Ret next (push_back k next t)))
    ∧ (is_Some (find_option cat next) →
       parse_loop PROGRAM cat (S fuel) argv argp opt lf t
       = parse_loop PROGRAM cat fuel argv (S argp) tok false
           (push_back k "" t)
       ∧ (t !! k = None →
          get cat tok (push_back k "" t) = Ret "" (push_back k "" t))).
Proof.
  intros Hf Harg Htok Hlong Hk Hne fuel argv argp opt lf t next Hargp Hnext.
  assert (Hshort : is_short_option_of (Some d) tok = true).
  { simpl. by apply String.eqb_eq. }
  rewrite (parse_loop_option PROGRAM cat fuel argv argp opt tok lf d t Hargp Hf).
  rewrite (parse_argument_value d tok argv argp false Harg Hargp).
  rewrite Hlong, Hshort. unfold parse_short_argument.
  rewrite (deref_Tok _ _ _ Hnext). split.
  - intros Hnone%is_option_false. rewrite Hnone. simpl. split.
    + run. by rewrite (set_success cat tok next k t Hk Hne).
    + intros Hfresh. by apply get_push_back_fresh.
  - intros Hsome%is_option_find. rewrite Hsome. simpl. split.
    + run. by rewrite (set_success cat tok "" k t Hk Hne).
    + intros Hfresh. by apply get_push_back_fresh.
Qed.

(** C5. A one-value option given as the long-form token "--opt=value"
    records the text after the first ['='] under the canonical key "opt",
    and [get] of "opt" returns it when it is the first value of the key.
    Given as the bare token "--opt", the token itself is the spelling handed
    to [set] and the value recorded is the empty string. *)
Theorem long_argument_value (d : option_t) (opt : string) :
  takes_value d → longopt d = "--" +:+ opt →
  free_of "=" opt → opt ≠ "" → to_key cat ("--" +:+ opt) = Value opt →
  ∀ fuel argv argp opt0 lf t,
    (∀ value,
       argv !! argp = Some ("--" +:+ opt +:+ "=" +:+ value) →
       find_option cat ("--" +:+ opt +:+ "=" +:+ value) = Some d →
       parse_loop PROGRAM cat (S fuel) argv argp opt0 lf t
       = parse_loop PROGRAM cat fuel argv (S argp)
           ("--" +:+ opt +:+ "=" +:+ value) false (push_back opt value t)
       ∧ (dashed opt = false → t !! opt = None →
          get cat opt (push_back opt value t)
          = Ret value (push_back opt value t)))
    ∧ (argv !! argp = Some ("--" +:+ opt) →
       find_option cat ("--" +:+ opt) = Some d →
       extract_option ("--" +:+ opt) = "--" +:+ opt
       ∧ parse_loop PROGRAM cat (S fuel) argv argp opt0 lf t
         = parse_loop PROGRAM cat fuel argv (S argp) ("--" +:+ opt) false
             (push_back opt "" t)).
Proof.
  intros Harg Hlong Hfree Hne Hk fuel argv argp opt0 lf t.
  assert (Hc : contains "=" ("--" +:+ opt) = false).
  { apply contains_false_free. intros q r Heq.
    destruct q as [|a [|b q]]; simpl in Heq; try done.
    injection Heq as _ _ Heq. by apply (Hfree q r). }
  split.
  - intros value Hargp Hf.
    assert (Hx : extract_option ("--" +:+ opt +:+ "=" +:+ value) = "--" +:+ opt).
    { rewrite <- (extract_option_eq ("--" +:+ opt) value Hc).
      by rewrite !app_assoc. }
    assert (Hv : extract_value ("--" +:+ opt +:+ "=" +:+ value) = value).
    { rewrite <- (extract_value_eq ("--" +:+ opt) value Hc) at 2.
      by rewrite !app_assoc. }
    split.
    + rewrite (parse_loop_option PROGRAM cat fuel argv argp opt0 _ lf d t Hargp Hf).
      rewrite (parse_argument_value d _ argv argp false Harg Hargp).
      replace (is_long_option_of _ _) with true.
      2:{ symmetry. unfold is_long_option_of. rewrite Hx, Hlong.
          rewrite String.eqb_refl. apply orb_true_r. }
      unfold parse_long_argument. rewrite Hx, Hv. run.
      by rewrite (set_success cat _ value opt t Hk Hne).
    + intros Hd Hfresh. apply get_push_back_fresh; [| done].
      unfold to_key in *. rewrite resolve_plain by done.
      rewrite resolve_dashed in Hk by done.
      destruct (find_option cat ("--" +:+ opt)); [done |].
      simpl in Hk. congruence.
  - intros Hargp Hf.
    pose proof (extract_option_plain _ Hc) as Hx.
    pose proof (extract_value_plain _ Hc) as Hv.
    split; [done |].
    rewrite (parse_loop_option PROGRAM cat fuel argv argp opt0 _ lf d t Hargp Hf).
    rewrite (parse_argument_value d _ argv argp false Harg Hargp).
    replace (is_long_option_of _ _) with true.
    2:{ symmetry. unfold is_long_option_of. rewrite Hlong.
        by rewrite String.eqb_refl. }
    unfold parse_long_argument. rewrite Hx, Hv. run.
    by rewrite (set_success cat _ "" opt t Hk Hne).
Qed.

(** *** List collection *)

(** C3. After a list-arity option token, three tokens [a], [b], [c] that
    match no descriptor, and a token [o] that matches one, the scan has
    appended exactly [a], [b], [c], in that order, under the canonical key
    of the list option when it reaches [o]; there list mode ends and [o]
    is dispatched on its own descriptor like any other option token. *)
Theorem list_argument_collects (d d_o : option_t) (L a b c o k prog : string)
    (rest : list string) :
  find_option cat L = Some d → argument d = list_argument →
  to_key cat L = Value k → k ≠ "" →
  find_option cat a = None → find_option cat b = None →
  find_option cat c = None → find_option cat o = Some d_o →
  ∀ t,
    let argv := prog :: L :: a :: b :: c :: o :: rest in
    let t' := push_back k c (push_back k b (push_back k a t)) in
    parse PROGRAM cat argv t
    = ('(argp', lf') ← parse_argument PROGRAM cat (Some d_o) argv 5 false;
       match argp' with
       | None => fail null_pointer
       | Some p => parse_loop PROGRAM cat (S (length rest)) argv (S p) o lf'
       end) t'
    ∧ t' !! k = Some (default [] (t !! k) ++ [a; b; c])
    ∧ ∀ k', k' ≠ k → t' !! k' = t !! k'.
Proof.
  intros Hf Harg Hk Hne Ha%is_option_false Hb%is_option_false
    Hc%is_option_false Ho t argv t'.
  split; [| split].
  - unfold parse. change (deref argv 1) with (Tok L).
    change (length argv) with (S (S (S (S (S (S (length rest))))))).
    cbv iota.
    rewrite (parse_loop_option PROGRAM cat _ argv 1 L L false d t eq_refl Hf).
    unfold parse_argument. change (deref argv 1) with (Tok L).
    rewrite Harg. change (deref argv 2) with (Tok a).
    run.
    rewrite (parse_loop_value PROGRAM cat _ argv 2 L a k t eq_refl Ha Hk Hne).
    rewrite (parse_loop_value PROGRAM cat _ argv 3 L b k _ eq_refl Hb Hk Hne).
    rewrite (parse_loop_value PROGRAM cat _ argv 4 L c k _ eq_refl Hc Hk Hne).
    by rewrite (parse_loop_option PROGRAM cat _ argv 5 L o true d_o _ eq_refl Ho).
  - unfold t'. rewrite !lookup_push_back. simpl.
    rewrite <- !(assoc_L (++)). done.
  - intros k' Hk'. unfold t'. by rewrite !lookup_push_back_ne.
Qed.

End values.

(** ** Reads of the argument vector *)

Section bounds.

Variable PROGRAM : string.
Variable cat : optlist_t.

Lemma deref_inside (argv : list string) (i : nat) :
  i ≤ length argv →
  (∃ tok, argv !! i = Some tok ∧ deref argv i = Tok tok ∧ i < length argv)
  ∨ (i = length argv ∧ deref argv i = Null).
Proof.
  intros Hi. destruct (argv !! i) as [tok|] eqn:Hl.
  - left. exists tok. split; [done |]. split; [by apply deref_Tok |].
    by apply lookup_lt_Some in Hl.
  - right. apply lookup_ge_None in Hl. assert (i = length argv) as -> by lia.
    split; [done | apply deref_Null].
Qed.

Lemma set_outcome (K v : string) (t : keyval_t) :
  (∃ r t', set cat K v t = Ret r t') ∨ set cat K v t = Throw.
Proof.
  unfold set, table_push_back. run.
  destruct (to_key cat K) as [k|]; [| by right].
  destruct (empty k); left; eauto.
Qed.

(** [parse_argument] on a token of the vector reads inside the vector and
    returns a cursor that still points at a token. *)
Lemma parse_argument_cursor (d : option_t) (argv : list string) (argp : nat)
    (tok : string) (lf : bool) (t : keyval_t) :
  argv !! argp = Some tok →
  match parse_argument PROGRAM cat (Some d) argv argp lf t with
  | Ret (Some p, _) _ => argp ≤ p < length argv
  | Ret (None, _) _ | Fault _ | OutOfFuel => False
  | Exit _ _ _ _ | Throw => True
  end.
Proof.
  intros Hargp. pose proof (lookup_lt_Some _ _ _ Hargp) as Hlt.
  assert (Hvalue :
    match
      ('(argp', key, value) ←
         (if is_long_option_of (Some d) tok
          then parse_long_argument argp tok
          else if is_short_option_of (Some d) tok
          then '(argp', value) ← parse_short_argument cat argv argp;
               mret (argp', tok, value)
          else exit 1%Z ""
                 (PROGRAM +:+ ": Unable to determine if '" +:+ tok
                  +:+ "' is a long or short option." +:+ nl));
       _ ← set cat key value; mret (Some argp', lf)) t
    with
    | Ret (Some p, _) _ => argp ≤ p < length argv
    | Ret (None, _) _ | Fault _ | OutOfFuel => False
    | Exit _ _ _ _ | Throw => True
    end).
  { destruct (is_long_option_of (Some d) tok).
    - unfold parse_long_argument. run.
      destruct (set_outcome (extract_option tok) (extract_value tok) t)
        as [(r & t' & ->) | ->]; [lia | done].
    - destruct (is_short_option_of (Some d) tok); [| by run].
      unfold parse_short_argument. run.
      destruct (deref_inside argv (S argp)) as [(next & Hn & -> & Hlt') | [_ ->]];
        [lia | |].
      + destruct (negb (is_option cat next)).
        * destruct (set_outcome tok next t) as [(r & t' & ->) | ->];
            [lia | done].
        * destruct (set_outcome tok "" t) as [(r & t' & ->) | ->];
            [lia | done].
      + destruct (set_outcome tok "" t) as [(r & t' & ->) | ->];
          [lia | done]. }
  unfold parse_argument. rewrite (deref_Tok _ _ _ Hargp).
  destruct (argument d); try apply Hvalue.
  - unfold parse_help_option. run. destruct (_ || _); [done | lia].
  - run.
    destruct (deref_inside argv (S argp)) as [(next & Hn & -> & Hlt') | [_ ->]];
      [lia | lia | done].
Qed.

Lemma parse_loop_in_bounds (fuel : nat) (argv : list string) (argp : nat)
    (opt : string) (lf : bool) (t : keyval_t) :
  argp ≤ length argv → length argv < fuel + argp →
  in_bounds (parse_loop PROGRAM cat fuel argv argp opt lf t).
Proof.
  revert argp opt lf t.
  induction fuel as [|fuel IH]; intros argp opt lf t Hle Hfuel; [lia |].
  simpl.
  destruct (deref_inside argv argp Hle) as [(tok & Hargp & -> & Hlt) | [_ ->]];
    [| done].
  assert (Hlist : ∀ b t', in_bounds
    ((if (b : bool) then parse_loop PROGRAM cat fuel argv (S argp) opt b
      else
        '(data, opt) ← parse_option PROGRAM cat tok;
        '(argp', listflag) ←
           parse_argument PROGRAM cat (Some data) argv argp b;
        match argp' with
        | None => fail null_pointer
        | Some argp => parse_loop PROGRAM cat fuel argv (S argp) opt listflag
        end) t')).
  { intros [|] t'; [apply IH; lia |].
    unfold parse_option. destruct (find_option cat tok) as [d|]; [| done].
    run. pose proof (parse_argument_cursor d argv argp tok false t' Hargp) as Hc.
    destruct (parse_argument PROGRAM cat (Some d) argv argp false t')
      as [[[p|] lf'] t''| | | |]; try done.
    apply IH; lia. }
  unfold parse_list_argument. run. destruct lf; [| apply (Hlist false)].
  destruct (is_option cat tok); [apply (Hlist false) |].
  destruct (set_outcome opt tok t) as [(r & t' & ->) | ->]; [| done].
  apply (Hlist true).
Qed.

(** C2. On an argument vector that holds only the program name, [parse]
    builds a string from the terminator of the vector, a null read, before
    the loop tests for the end. On every vector with at least one token
    after the program name, no read of [parse] leaves the vector or goes
    through a null pointer, and the loop ends within its iterations. *)
Theorem parse_reads (t : keyval_t) :
  (∀ prog, parse PROGRAM cat [prog] t = Fault null_string)
  ∧ (∀ argv, 2 ≤ length argv → in_bounds (parse PROGRAM cat argv t)).
Proof.
  split; [done |].
  intros argv Hlen. unfold parse.
  destruct (deref_inside argv 1) as [(tok & _ & -> & _) | [? _]]; [lia | | lia].
  apply parse_loop_in_bounds; lia.
Qed.

End bounds.

(** ** The engine on concrete command lines *)

Section runs.

(** C1. The code at the input [-v] with the catalog entry
    [-v]/[--verbose] of arity [no_argument]: [parse] returns with an empty
    table, so [has("verbose")] is false and [get("verbose")] is the empty
    string; no presence is recorded for the option. *)
Lemma no_argument_presence_lost :
  parse "prog" demo_catalog ["prog"; "-v"] ∅ = Ret tt ∅
  ∧ has demo_catalog "verbose" ∅ = Ret false ∅
  ∧ get demo_catalog "verbose" ∅ = Ret "" ∅
  ∧ parse "prog" demo_catalog ["prog"; "-v"; "--output=out.txt"] ∅
    = Ret tt (push_back "output" "out.txt" ∅)
  ∧ has demo_catalog "verbose" (push_back "output" "out.txt" ∅)
    = Ret false (push_back "output" "out.txt" ∅).
Proof. by vm_compute. Qed.

Lemma find_option_matching_rule_run :
  parse "prog" demo_catalog ["prog"; "--bogus"] ∅
  = Exit 1%Z "" ("prog" +:+ ": Invalid option '" +:+ "--bogus" +:+ "'" +:+ nl) ∅.
Proof.
  change (parse "prog" demo_catalog ["prog"; "--bogus"] ∅)
    with (parse_loop "prog" demo_catalog 2 ["prog"; "--bogus"] 1 "--bogus" false ∅).
  apply (proj2 (proj2 (find_option_matching_rule "prog" demo_catalog "--bogus")));
    reflexivity.
Defined.

Lemma set_reports_run :
  set demo_catalog "bogus" "x" ∅ = Ret (-1)%Z ∅
  ∧ set demo_catalog "o" "out.txt" ∅ = Ret 0%Z (push_back "output" "out.txt" ∅).
Proof.
  split.
  - apply (proj1 (set_reports demo_catalog "bogus" "x" ∅)). reflexivity.
  - apply (proj2 (proj2 (set_reports demo_catalog "o" "out.txt" ∅)) opt_output);
      [reflexivity | reflexivity | discriminate].
Defined.

Lemma to_key_round_trip_run :
  ∃ k, canonical_key opt_output k
       ∧ to_key demo_catalog (longopt opt_output) = Value k.
Proof.
  assert (Hin : opt_output ∈ demo_catalog) by (right; left).
  destruct (to_key_round_trip "prog" demo_catalog eq_refl opt_output Hin)
    as (k & Hk & Hlong & _).
  exists k. split; [exact Hk | apply Hlong; discriminate].
Defined.

Lemma help_shortcut_run :
  parse "prog" demo_catalog ["prog"; "-h"] ∅
  = Exit 0%Z (usage "prog" demo_catalog) "" ∅.
Proof.
  change (parse "prog" demo_catalog ["prog"; "-h"] ∅)
    with (parse_loop "prog" demo_catalog 2 ["prog"; "-h"] 1 "-h" false ∅).
  apply (proj1 (help_shortcut "prog" demo_catalog opt_help "-h" eq_refl));
    [reflexivity | left; reflexivity | reflexivity].
Defined.

Lemma list_argument_missing_run :
  parse "prog" demo_catalog ["prog"; "--tags"] ∅
  = Exit 1%Z ""
      ("prog" +:+ ": No argument after option '" +:+ "--tags"
       +:+ "' with list_argument type." +:+ nl) ∅.
Proof.
  change (parse "prog" demo_catalog ["prog"; "--tags"] ∅)
    with (parse_loop "prog" demo_catalog 2 ["prog"; "--tags"] 1 "--tags" false ∅).
  apply (list_argument_missing "prog" demo_catalog opt_tags "--tags");
    reflexivity.
Defined.

Lemma short_argument_value_run :
  parse "prog" demo_catalog ["prog"; "-o"; "out.txt"] ∅
  = Ret tt (push_back "output" "out.txt" ∅)
  ∧ parse "prog" demo_catalog ["prog"; "-o"; "-v"] ∅
    = Ret tt (push_back "output" "" ∅).
Proof.
  assert (Hval : takes_value opt_output) by (left; reflexivity).
  assert (Hne : "output" ≠ "") by discriminate.
  split.
  - change (parse "prog" demo_catalog ["prog"; "-o"; "out.txt"] ∅)
      with (parse_loop "prog" demo_catalog 3 ["prog"; "-o"; "out.txt"] 1 "-o"
              false ∅).
    rewrite (proj1 (proj1 (short_argument_value "prog" demo_catalog
      opt_output "-o" "output" eq_refl Hval eq_refl eq_refl eq_refl Hne
      2 ["prog"; "-o"; "out.txt"] 1 "-o" false ∅ "out.txt" eq_refl eq_refl)
      eq_refl)).
    reflexivity.
  - change (parse "prog" demo_catalog ["prog"; "-o"; "-v"] ∅)
      with (parse_loop "prog" demo_catalog 3 ["prog"; "-o"; "-v"] 1 "-o"
              false ∅).
    rewrite (proj1 (proj2 (short_argument_value "prog" demo_catalog
      opt_output "-o" "output" eq_refl Hval eq_refl eq_refl eq_refl Hne
      2 ["prog"; "-o"; "-v"] 1 "-o" false ∅ "-v" eq_refl eq_refl)
      (ex_intro _ opt_verbose eq_refl))).
    reflexivity.
Defined.

Lemma long_argument_value_run :
  parse "prog" demo_catalog ["prog"; "--output=out.txt"] ∅
  = Ret tt (push_back "output" "out.txt" ∅)
  ∧ get demo_catalog "output" (push_back "output" "out.txt" ∅)
    = Ret "out.txt" (push_back "output" "out.txt" ∅).
Proof.
  assert (Hval : takes_value opt_output) by (left; reflexivity).
  assert (Hne : "output" ≠ "") by discriminate.
  assert (Hfree : free_of "=" "output")
    by (apply contains_false_free; reflexivity).
  destruct (proj1 (long_argument_value "prog" demo_catalog opt_output "output"
    Hval eq_refl Hfree Hne eq_refl
    1 ["prog"; "--output=out.txt"] 1 "--output=out.txt" false ∅)
    "out.txt" eq_refl eq_refl) as [Hrun Hget].
  split.
  - change (parse "prog" demo_catalog ["prog"; "--output=out.txt"] ∅)
      with (parse_loop "prog" demo_catalog 2 ["prog"; "--output=out.txt"] 1
              "--output=out.txt" false ∅).
    rewrite Hrun. reflexivity.
  - apply Hget; reflexivity.
Defined.

Lemma list_argument_collects_run :
  ∃ t', parse "prog" demo_catalog
          ["prog"; "--tags"; "a"; "b"; "c"; "-v"] ∅ = Ret tt t'
        ∧ t' !! "tags" = Some ["a"; "b"; "c"].
Proof.
  assert (Hne : "tags" ≠ "") by discriminate.
  destruct (list_argument_collects "prog" demo_catalog opt_tags opt_verbose
    "--tags" "a" "b" "c" "-v" "tags" "prog" []
    eq_refl eq_refl eq_refl Hne eq_refl eq_refl eq_refl eq_refl ∅)
    as (Hrun & Hkey & _).
  eexists. split; [rewrite Hrun; reflexivity | exact Hkey].
Defined.

Lemma parse_reads_run :
  in_bounds (parse "prog" demo_catalog ["prog"; "--tags"; "x"; "y"] ∅).
Proof.
  apply (proj2 (parse_reads "prog" demo_catalog ∅)). simpl. lia.
Defined.

End runs.


(** * Further properties of the engine *)

(** ** [extract] *)

Section extract_more.


(** X2. The option part that [extract] returns holds no ['='], so extracting
    it again changes nothing and its value part is empty. *)
Theorem extract_option_idempotent (tok : string) :
  contains "=" (extract_option tok) = false
  ∧ extract_option (extract_option tok) = extract_option tok
  ∧ extract_value (extract_option tok) = "".
Proof.
  assert (H : contains "=" (extract_option tok) = false).
  { destruct (contains "=" tok) eqn:Hc.
    - destruct (contains_split _ _ Hc) as (p & v & -> & Hp).
      change (p +:+ String "=" v) with (p +:+ "=" +:+ v).
      by rewrite extract_option_eq.
    - by rewrite extract_option_plain. }
  split; [done |].
  split; [by apply extract_option_plain | by apply extract_value_plain].
Qed.

End extract_more.

(** ** Catalog lookup, conversions and keys *)

Section lookup_more.

Variable cat : optlist_t.

(** X3. [find_option] returns the first descriptor, in catalog order, that
    matches the token: the descriptors before it do not match. *)
Theorem find_option_first_match (tok : string) (d : option_t) :
  find_option cat tok = Some d ↔
  ∃ pre post, cat = pre ++ d :: post
              ∧ (∀ d', d' ∈ pre → ¬ matches d' tok) ∧ matches d tok.
Proof.
  split.
  - unfold find_option. induction cat as [|d0 opts IH]; simpl; [done |].
    destruct (is_option_of (Some d0) tok) eqn:H0.
    + intros [= <-]. exists [], opts. split; [done |].
      split; [| by apply is_option_of_matches].
      intros d' Hd'. by apply elem_of_nil in Hd'.
    + intros (pre & post & -> & Hpre & Hd)%IH.
      exists (d0 :: pre), post. split; [done |]. split; [| done].
      intros d' [-> | Hd']%elem_of_cons; [| by apply Hpre].
      rewrite <- is_option_of_matches. congruence.
  - intros (pre & post & -> & Hpre & Hd). apply find_in_first.
    + intros d' Hd'. apply not_true_iff_false.
      rewrite is_option_of_matches. by apply Hpre.
    + by apply is_option_of_matches.
Qed.

(** X4. The empty token is a recognized option exactly when some descriptor
    lacks a short form or lacks a long form, and a token that begins with
    ['='] is recognized whenever some descriptor lacks a long form: the
    comparison with an absent (empty) form succeeds. *)
Theorem empty_token_recognized :
  (is_option cat "" = true ↔
   ∃ d, d ∈ cat ∧ (shortopt d = "" ∨ longopt d = ""))
  ∧ ((∃ d, d ∈ cat ∧ longopt d = "") → ∀ v, is_option cat ("=" +:+ v) = true).
Proof.
  split.
  - rewrite is_option_find, find_option_is_Some. split.
    + intros (d & Hd & [Hs | [Hl | [_ [Hl | [v Hl]]]]]); exists d;
        split; try done; auto.
      by destruct (longopt d).
    + intros (d & Hd & [Hs | Hl]); exists d; split; try done.
      * by left.
      * right; by left.
  - intros (d & Hd & Hl) v. rewrite is_option_find, find_option_is_Some.
    exists d. split; [done |]. right; right. rewrite Hl. split.
    + intros [|a q] r; simpl; discriminate.
    + right. by exists v.
Qed.

Lemma resolve_in (s : string) (d : option_t) :
  resolve cat s = Some d → d ∈ cat.
Proof.
  unfold resolve. destruct (negb _).
  - destruct (find_option cat (insert0 "--" s)) eqn:H1.
    + intros [= <-]. by apply find_option_Some in H1 as [? _].
    + intros H2. by apply find_option_Some in H2 as [? _].
  - intros H. by apply find_option_Some in H as [? _].
Qed.

Lemma key_of_throws (d : option_t) :
  key_of (Some d) = OutOfRange ↔ String.length (longopt d) = 1.
Proof.
  unfold key_of, substr. destruct (longopt d) as [|a [|b l]]; simpl.
  - split; [| done]. by destruct (shortopt d).
  - done.
  - done.
Qed.

(** X5. [to_key] throws [std::out_of_range] exactly when the spelling
    resolves to a descriptor whose long form is a single character (its
    [substr(2)] starts past the end); in every other case it returns a key,
    possibly empty. *)
Theorem to_key_throws (s : string) :
  to_key cat s = OutOfRange ↔
  ∃ d, d ∈ cat ∧ resolve cat s = Some d ∧ String.length (longopt d) = 1.
Proof.
  unfold to_key. split.
  - destruct (resolve cat s) as [d|] eqn:Hr; [| done].
    intros H%key_of_throws. exists d. split; [by apply (resolve_in s) | done].
  - intros (d & _ & -> & H). by apply key_of_throws.
Qed.

(** A token that resolves to no descriptor converts to the empty string. *)
Lemma convert_unresolved (tok : string) :
  find_option cat tok = None →
  to_long_option cat tok = "" ∧ to_short_option cat tok = "".
Proof. unfold to_long_option, to_short_option. by intros ->. Qed.

Hypothesis Hwf : wf_catalog cat = true.

(** X6. In a well-formed catalog the spellings of one descriptor share one
    key: the short form canonicalizes like the long form, the bare name of
    the long form is its own key, and the bare name of the short form
    canonicalizes like the short form unless some long form claims it. *)
Theorem to_key_spellings (d : option_t) :
  d ∈ cat →
  (shortopt d ≠ "" → longopt d ≠ "" →
   to_key cat (shortopt d) = to_key cat (longopt d))
  ∧ (∀ k, longopt d = "--" +:+ k → dashed k = false → to_key cat k = Value k)
  ∧ (∀ s, shortopt d = "-" +:+ s → dashed s = false →
       find_option cat ("--" +:+ s) = None →
       to_key cat s = to_key cat (shortopt d)).
Proof.
  intros Hd. pose proof (wf_catalog_option cat Hwf d Hd) as Hwd.
  split; [| split].
  - intros Hs Hl.
    destruct (wf_option_short d Hwd Hs) as [Hds _].
    destruct (wf_option_long d Hwd Hl) as [[Hdl _]%andb_true_iff _].
    unfold to_key. rewrite !resolve_dashed by done.
    by rewrite wf_find_short, wf_find_long.
  - intros k Hk Hdk. unfold to_key. rewrite resolve_plain by done.
    rewrite <- Hk, wf_find_long by (done || by rewrite Hk).
    apply key_of_canonical. unfold canonical_key. by rewrite Hk.
  - intros s Hs Hds Hnone. unfold to_key.
    rewrite resolve_plain, Hnone by done.
    rewrite resolve_dashed by (by rewrite Hs). by rewrite Hs.
Qed.

(** X7. In a well-formed catalog [to_long_option] and [to_short_option]
    convert each spelling of a descriptor to the descriptor's other form: the
    short form to the long form, the long form (with or without an attached
    value) to the short form, and each form to itself. *)
Theorem convert_forms (d : option_t) :
  d ∈ cat →
  (shortopt d ≠ "" →
   to_long_option cat (shortopt d) = longopt d
   ∧ to_short_option cat (shortopt d) = shortopt d)
  ∧ (longopt d ≠ "" →
     ∀ v, to_short_option cat (longopt d) = shortopt d
          ∧ to_long_option cat (longopt d) = longopt d
          ∧ to_short_option cat (longopt d +:+ "=" +:+ v) = shortopt d
          ∧ to_long_option cat (longopt d +:+ "=" +:+ v) = longopt d).
Proof.
  intros Hd. unfold to_long_option, to_short_option. split.
  - intros Hs. by rewrite wf_find_short.
  - intros Hl v. by rewrite wf_find_long, wf_find_long_value.
Qed.

End lookup_more.

(** ** The table behind [set], [has] and [get] *)

Section table_more.

Variable cat : optlist_t.

Lemma set_inv (K v : string) (t t' : keyval_t) (r : Z) :
  set cat K v t = Ret r t' →
  (r = (-1)%Z ∧ t' = t ∧ to_key cat K = Value "")
  ∨ (r = 0%Z ∧ ∃ k, to_key cat K = Value k ∧ k ≠ "" ∧ t' = push_back k v t).
Proof.
  unfold set, table_push_back. run.
  destruct (to_key cat K) as [k|]; [| done].
  destruct (empty k) eqn:Hk; intros [= <- <-].
  - left. apply empty_true in Hk. by subst.
  - right. apply empty_false in Hk. eauto.
Qed.

(** [get] in terms of the sequence recorded under the key. *)
Lemma get_lookup (K k : string) (t : keyval_t) :
  to_key cat K = Value k →
  get cat K t = match t !! k with
                | Some (v :: _) => Ret v t
                | Some [] => Throw
                | None => Ret "" t
                end.
Proof.
  intros HK. destruct (t !! k) as [[|v vs]|] eqn:Hk.
  - unfold get. run. rewrite (has_spec _ _ _ _ HK).
    rewrite bool_decide_eq_true_2 by (by rewrite Hk).
    rewrite HK. unfold table_at0. by rewrite Hk.
  - by apply (get_first cat K k v vs).
  - by apply (get_absent cat K k).
Qed.

(** X8. After a successful [set(K, v)], [has(K)] is true and [get(K)] is the
    first value ever recorded under the key of [K]: the value just set when
    the key was new, the older first value otherwise. A second [set] on the
    same spelling does not change what [get] returns. *)
Theorem get_after_set (K v : string) (t t' : keyval_t) :
  set cat K v t = Ret 0%Z t' →
  ∃ k first,
    to_key cat K = Value k
    ∧ first = List.hd v (default [] (t !! k))
    ∧ has cat K t' = Ret true t'
    ∧ get cat K t' = Ret first t'
    ∧ ∀ v2 t'', set cat K v2 t' = Ret 0%Z t'' → get cat K t'' = Ret first t''.
Proof.
  intros [[? _] | [_ (k & HK & Hne & ->)]]%set_inv; [done |].
  exists k, (List.hd v (default [] (t !! k))).
  assert (Hlook : ∃ vs, push_back k v t !! k
                        = Some (List.hd v (default [] (t !! k)) :: vs)).
  { rewrite lookup_push_back. destruct (default [] (t !! k)); simpl; eauto. }
  destruct Hlook as [vs Hlook].
  split; [done |]. split; [done |]. split; [| split].
  - rewrite (has_spec _ _ _ _ HK). by rewrite Hlook.
  - by apply (get_first cat K k _ vs).
  - intros v2 t'' [[? _] | [_ (k2 & HK2 & _ & ->)]]%set_inv; [done |].
    assert (k2 = k) as -> by congruence.
    apply (get_first cat K k _ (vs ++ [v2])); [done |].
    by rewrite lookup_push_back, Hlook.
Qed.

(** X9. [set] on one key leaves the answers of [has] and [get] for every
    spelling with another key as they were. *)
Theorem set_other_key (K v K' k' : string) (t t' : keyval_t) (r : Z) :
  set cat K v t = Ret r t' →
  to_key cat K' = Value k' → to_key cat K ≠ Value k' →
  t' !! k' = t !! k'
  ∧ (∀ b, has cat K' t = Ret b t → has cat K' t' = Ret b t')
  ∧ (∀ x, get cat K' t = Ret x t → get cat K' t' = Ret x t').
Proof.
  intros Hset HK' Hne.
  assert (Hlook : t' !! k' = t !! k').
  { apply set_inv in Hset as [(_ & -> & _) | [_ (k & HK & _ & ->)]]; [done |].
    apply lookup_push_back_ne. congruence. }
  split; [done |]. split.
  - intros b. rewrite !(has_spec _ _ _ _ HK'), Hlook. by intros [= ->].
  - intros x. rewrite !(get_lookup _ _ _ HK'), Hlook.
    destruct (t !! k') as [[|x0 vs]|]; [done | |]; by intros [= ->].
Qed.

(** X10. On a table built by [set], a spelling that resolves to no catalog
    descriptor is reported absent: [has] is false and [get] is the empty
    string, and neither changes the table. The same holds for a spelling
    whose key has no recorded value. *)
Theorem query_absent (K : string) (t : keyval_t) :
  (resolve cat K = None → table_ok t →
   has cat K t = Ret false t ∧ get cat K t = Ret "" t)
  ∧ (∀ k, to_key cat K = Value k → t !! k = None →
     has cat K t = Ret false t ∧ get cat K t = Ret "" t).
Proof.
  assert (Habsent : ∀ k, to_key cat K = Value k → t !! k = None →
    has cat K t = Ret false t ∧ get cat K t = Ret "" t).
  { intros k HK Hk. split; [| by apply (get_absent cat K k)].
    rewrite (has_spec _ _ _ _ HK), Hk.
    rewrite bool_decide_eq_false_2; [done | by intros [? ?]]. }
  split; [| done].
  intros Hr Hok. apply (Habsent ""); [by apply to_key_unresolved |].
  destruct (t !! "") as [vs|] eqn:Hl; [| done].
  by destruct (Hok "" vs Hl).
Qed.

(** X11. On a table built by [set], the [at(0)] of [get] is always in range:
    [get] throws only when [to_key] throws, and otherwise returns a value
    and leaves the table as it was, the empty string when [has] is false. *)
Theorem get_in_range (K : string) (t : keyval_t) :
  table_ok t →
  (get cat K t = Throw ↔ to_key cat K = OutOfRange)
  ∧ (∀ k, to_key cat K = Value k →
     ∃ x, get cat K t = Ret x t ∧ (has cat K t = Ret false t → x = "")).
Proof.
  intros Hok. split.
  - destruct (to_key cat K) as [k|] eqn:HK.
    + rewrite (get_lookup _ _ _ HK).
      split; [| done]. destruct (t !! k) as [[|x vs]|] eqn:Hk; try done.
      by destruct (Hok k [] Hk).
    + split; [done |]. intros _. unfold get, has. run. by rewrite HK.
  - intros k HK. rewrite (get_lookup _ _ _ HK), (has_spec _ _ _ _ HK).
    destruct (t !! k) as [[|x vs]|] eqn:Hk.
    + by destruct (Hok k [] Hk).
    + exists x. split; [done |].
      rewrite bool_decide_eq_true_2 by eauto. done.
    + by exists "".
Qed.

End table_more.

(** ** What a run does to the table and how it ends *)

Section outcomes.

Variable PROGRAM : string.
Variable cat : optlist_t.

Lemma stores_table_ok (t t' : keyval_t) :
  stores cat t t' → table_ok t → table_ok t'.
Proof.
  intros (d & k & v & _ & _ & Hne & ->) Hok k' vs.
  destruct (decide (k' = k)) as [-> | Hk'].
  - rewrite lookup_push_back. intros [= <-]. split; [done |].
    by destruct (default [] (t !! k)).
  - rewrite lookup_push_back_ne by done. apply Hok.
Qed.

Lemma stores_extends (t t' : keyval_t) : stores cat t t' → extends t t'.
Proof.
  intros (d & k & v & _ & _ & _ & ->) k' vs Hvs.
  destruct (decide (k' = k)) as [-> | Hk'].
  - exists [v]. by rewrite lookup_push_back, Hvs.
  - exists []. by rewrite lookup_push_back_ne, app_nil_r.
Qed.

Lemma stores_keys (t t' : keyval_t) (k : string) :
  stores cat t t' → is_Some (t' !! k) →
  is_Some (t !! k) ∨ ∃ d, d ∈ cat ∧ key_of (Some d) = Value k ∧ k ≠ "".
Proof.
  intros (d & k0 & v & Hd & Hk0 & Hne & ->) Hk.
  destruct (decide (k = k0)) as [-> | Hk'].
  - right. eauto.
  - left. by rewrite lookup_push_back_ne in Hk.
Qed.

Lemma rtc_stores_table_ok (t t' : keyval_t) :
  rtc (stores cat) t t' → table_ok t → table_ok t'.
Proof. induction 1; eauto using stores_table_ok. Qed.

Lemma rtc_stores_extends (t t' : keyval_t) :
  rtc (stores cat) t t' → extends t t'.
Proof.
  induction 1 as [t | t t1 t2 H1 _ IH].
  - intros k vs Hk. exists []. by rewrite app_nil_r.
  - intros k vs Hk. destruct (stores_extends _ _ H1 k vs Hk) as [ws1 H].
    destruct (IH k _ H) as [ws2 H2]. exists (ws1 ++ ws2).
    by rewrite (assoc_L (++)).
Qed.

Lemma rtc_stores_keys (t t' : keyval_t) (k : string) :
  rtc (stores cat) t t' → is_Some (t' !! k) →
  is_Some (t !! k) ∨ ∃ d, d ∈ cat ∧ key_of (Some d) = Value k ∧ k ≠ "".
Proof.
  induction 1 as [t | t t1 t2 H1 _ IH]; [by left |].
  intros [Hk | Hk]%IH; [| by right]. by apply (stores_keys t t1).
Qed.

Lemma post_trans {A} (t t' : keyval_t) (o : outcome A) :
  rtc (stores cat) t t' → post PROGRAM cat t' o → post PROGRAM cat t o.
Proof.
  intros Htt'. destruct o; simpl; try done.
  - intros H. by etrans.
  - intros [H Hexit]. split; [by etrans | done].
Qed.

Lemma post_bind {A B} (m : M A) (k : A → M B) (t : keyval_t) :
  post PROGRAM cat t (m t) →
  (∀ a t', m t = Ret a t' → post PROGRAM cat t' (k a t')) →
  post PROGRAM cat t ((m ≫= k) t).
Proof.
  intros Hm Hk. run. destruct (m t) as [a t'| | | |] eqn:Hmt; try done.
  simpl in Hm. eapply post_trans; [done |]. by apply Hk.
Qed.

Lemma post_ret {A} (a : A) (t : keyval_t) :
  post PROGRAM cat t ((mret a : M A) t).
Proof. run. simpl. done. Qed.

Lemma set_post (K v : string) (t : keyval_t) :
  post PROGRAM cat t (set cat K v t).
Proof.
  unfold set, table_push_back, to_key. run.
  destruct (resolve cat K) as [d|] eqn:Hr; [| simpl; done].
  pose proof (resolve_in cat K d Hr) as Hd.
  destruct (key_of (Some d)) as [k|] eqn:Hk.
  - destruct (empty k) eqn:He; simpl; [done |].
    apply rtc_once. exists d, k, v. by apply empty_false in He.
  - simpl. exists d. split; [done | by apply key_of_throws].
Qed.

Lemma parse_list_argument_post (tok opt : string) (lf : bool) (t : keyval_t) :
  post PROGRAM cat t (parse_list_argument cat tok opt lf t).
Proof.
  unfold parse_list_argument. destruct lf; [| apply post_ret].
  destruct (is_option cat tok); [apply post_ret |].
  apply post_bind; [apply set_post |]. intros _ t' _. apply post_ret.
Qed.

Lemma parse_option_post (tok : string) (t : keyval_t) :
  post PROGRAM cat t (parse_option PROGRAM cat tok t).
Proof.
  unfold parse_option. destruct (find_option cat tok); [apply post_ret |].
  run. simpl. split; [done |]. right. split; [done |]. split; [done |].
  by exists ("Invalid option '" +:+ tok +:+ "'" +:+ nl).
Qed.

Lemma parse_argument_post (d : option_t) (argv : list string) (argp : nat)
    (lf : bool) (t : keyval_t) :
  post PROGRAM cat t (parse_argument PROGRAM cat (Some d) argv argp lf t).
Proof.
  unfold parse_argument. destruct (deref argv argp) as [tok| |]; try done.
  assert (Hvalue : post PROGRAM cat t
    (('(argp', key, value) ←
        (if is_long_option_of (Some d) tok
         then parse_long_argument argp tok
         else if is_short_option_of (Some d) tok
         then '(argp', value) ← parse_short_argument cat argv argp;
              mret (argp', tok, value)
         else exit 1%Z ""
                (PROGRAM +:+ ": Unable to determine if '" +:+ tok
                 +:+ "' is a long or short option." +:+ nl));
      _ ← set cat key value; mret (Some argp', lf)) t)).
  { apply post_bind.
    - destruct (is_long_option_of (Some d) tok); [apply post_ret |].
      destruct (is_short_option_of (Some d) tok).
      + apply post_bind.
        * unfold parse_short_argument.
          destruct (deref argv (S argp)) as [next| |];
            [destruct (negb _) | |]; try apply post_ret. done.
        * intros [p value] t' _. apply post_ret.
      + run. simpl. split; [done |]. right. split; [done |]. split; [done |].
        by exists ("Unable to determine if '" +:+ tok
                   +:+ "' is a long or short option." +:+ nl).
    - intros [[p key] value] t' _.
      apply post_bind; [apply set_post |]. intros _ t'' _. apply post_ret. }
  destruct (argument d); try apply Hvalue.
  - apply post_bind; [| intros _ t' _; apply post_ret].
    unfold parse_help_option. destruct (_ || _); [| apply post_ret].
    run. simpl. split; [done |]. by left.
  - destruct (deref argv (S argp)); [apply post_ret | | done].
    run. simpl. split; [done |]. right. split; [done |]. split; [done |].
    by exists ("No argument after option '" +:+ tok
               +:+ "' with list_argument type." +:+ nl).
Qed.

Lemma parse_loop_post (fuel : nat) (argv : list string) (argp : nat)
    (opt : string) (lf : bool) (t : keyval_t) :
  post PROGRAM cat t (parse_loop PROGRAM cat fuel argv argp opt lf t).
Proof.
  revert argp opt lf t. induction fuel as [|fuel IH]; intros argp opt lf t;
    [done |].
  simpl. destruct (deref argv argp) as [tok| |]; [| apply post_ret | done].
  apply post_bind; [apply parse_list_argument_post |].
  intros [|] t' _; [apply IH |].
  apply post_bind; [apply parse_option_post |].
  intros [d opt'] t'' _.
  apply post_bind; [apply parse_argument_post |].
  intros [[p|] lf'] t''' _; [apply IH | done].
Qed.

Lemma parse_post (argv : list string) (t : keyval_t) :
  post PROGRAM cat t (parse PROGRAM cat argv t).
Proof.
  unfold parse. destruct (deref argv 1); try done. apply parse_loop_post.
Qed.

(** X12. The empty table of a new engine has no empty key and no empty
    sequence, and [set] and [parse] keep it so: in every table they return,
    each key is non-empty and holds at least one value. *)
Theorem table_ok_kept (t : keyval_t) :
  table_ok ∅
  ∧ (table_ok t →
     (∀ K v r t', set cat K v t = Ret r t' → table_ok t')
     ∧ (∀ argv u t', parse PROGRAM cat argv t = Ret u t' → table_ok t')).
Proof.
  split; [intros k vs; by rewrite lookup_empty |].
  intros Hok. split.
  - intros K v r t' Hset. pose proof (set_post K v t) as H.
    rewrite Hset in H. by apply (rtc_stores_table_ok t).
  - intros argv u t' Hp. pose proof (parse_post argv t) as H.
    rewrite Hp in H. by apply (rtc_stores_table_ok t).
Qed.

(** X13. [parse] only appends: every sequence recorded before the call is a
    prefix of the sequence under the same key afterwards, so [get] of a
    spelling that already had a value returns the same value after the
    call. *)
Theorem parse_appends (argv : list string) (t t' : keyval_t) (u : unit) :
  parse PROGRAM cat argv t = Ret u t' →
  extends t t'
  ∧ ∀ K k v vs, to_key cat K = Value k → t !! k = Some (v :: vs) →
      get cat K t = Ret v t ∧ get cat K t' = Ret v t'.
Proof.
  intros Hp. pose proof (parse_post argv t) as H. rewrite Hp in H.
  apply rtc_stores_extends in H. split; [done |].
  intros K k v vs HK Hk. destruct (H k _ Hk) as [ws Hk'].
  split; [by apply (get_first cat K k v vs) |].
  by apply (get_first cat K k v (vs ++ ws)).
Qed.

(** X14. Every key that [parse] adds to the table is the non-empty key of a
    catalog descriptor (its long form past two characters, or its short form
    past one when it has no long form). *)
Theorem parse_keys_of_catalog (argv : list string) (t t' : keyval_t)
    (u : unit) (k : string) :
  parse PROGRAM cat argv t = Ret u t' → is_Some (t' !! k) →
  is_Some (t !! k) ∨ ∃ d, d ∈ cat ∧ key_of (Some d) = Value k ∧ k ≠ "".
Proof.
  intros Hp. pose proof (parse_post argv t) as H. rewrite Hp in H.
  by apply rtc_stores_keys.
Qed.

(** X15. [parse] ends the process in two ways only: with status 0, the usage
    text on the output stream and nothing on the error stream; or with status
    1, nothing on the output stream and a diagnostic that starts with the
    program name and a colon on the error stream. *)
Theorem parse_exits (argv : list string) (t t' : keyval_t) (c : Z)
    (out err : string) :
  parse PROGRAM cat argv t = Exit c out err t' →
  (c = 0%Z ∧ out = usage PROGRAM cat ∧ err = "")
  ∨ (c = 1%Z ∧ out = "" ∧ ∃ msg, err = PROGRAM +:+ ": " +:+ msg).
Proof.
  intros Hp. pose proof (parse_post argv t) as H. rewrite Hp in H.
  by destruct H as [_ H].
Qed.


End outcomes.

(** ** More on the scan *)

Section scan_more.

Variable PROGRAM : string.
Variable cat : optlist_t.

Lemma deref_tail (p : string) (rest : list string) (i : nat) :
  deref (p :: rest) (S i) = deref rest i.
Proof. done. Qed.

Lemma parse_argument_tail (p1 p2 : string) (rest : list string) (i : nat)
    (data : option option_t) (lf : bool) :
  parse_argument PROGRAM cat data (p1 :: rest) (S i) lf
  = parse_argument PROGRAM cat data (p2 :: rest) (S i) lf.
Proof.
  unfold parse_argument, parse_short_argument. by rewrite !deref_tail.
Qed.

Lemma parse_loop_tail (p1 p2 : string) (rest : list string) (fuel i : nat)
    (opt : string) (lf : bool) (t : keyval_t) :
  parse_loop PROGRAM cat fuel (p1 :: rest) (S i) opt lf t
  = parse_loop PROGRAM cat fuel (p2 :: rest) (S i) opt lf t.
Proof.
  revert i opt lf t. induction fuel as [|fuel IH]; intros i opt lf t; [done |].
  simpl. rewrite !deref_tail. destruct (deref rest i) as [tok| |]; try done.
  run. destruct (parse_list_argument cat tok opt lf t) as [[|] t1| | | |];
    try done.
  destruct (parse_option PROGRAM cat tok t1) as [[d opt'] t2| | | |]; try done.
  rewrite (parse_argument_tail p1 p2).
  by destruct (parse_argument PROGRAM cat (Some d) (p2 :: rest) (S i) false t2)
    as [[[p|] lf'] t3| | | |].
Qed.

(** X17. [parse] never looks at the program name: two vectors that differ
    only in their first cell give the same outcome. *)
Theorem parse_skips_program_name (p1 p2 : string) (rest : list string)
    (t : keyval_t) :
  parse PROGRAM cat (p1 :: rest) t = parse PROGRAM cat (p2 :: rest) t.
Proof.
  unfold parse. rewrite !deref_tail. destruct (deref rest 0); try done.
  apply parse_loop_tail.
Qed.

(** X18. A token that resolves to a descriptor of arity [no_argument] other
    than the help descriptor is stepped over: the scan moves to the next
    cell with list mode off and the table as it was. *)
Theorem no_argument_stepped_over (d : option_t) (tok : string) :
  find_option cat tok = Some d → argument d = no_argument →
  longopt d ≠ "--help" → shortopt d ≠ "-?" →
  ∀ fuel argv argp opt lf t,
    argv !! argp = Some tok →
    parse_loop PROGRAM cat (S fuel) argv argp opt lf t
    = parse_loop PROGRAM cat fuel argv (S argp) tok false t.
Proof.
  intros Hf Harg Hl Hs fuel argv argp opt lf t Hargp.
  rewrite (parse_loop_option PROGRAM cat fuel argv argp opt tok lf d t Hargp Hf).
  run. by rewrite (no_argument_unrecorded PROGRAM cat d tok argv argp false t).
Qed.

(** X19. A one-value option given by its short form as the last token is
    accepted without a value: the empty string is recorded under its key and
    [parse] returns; a required argument is not enforced. *)
Theorem short_argument_last (d : option_t) (tok k : string) :
  find_option cat tok = Some d → takes_value d →
  tok = shortopt d → is_long_option_of (Some d) tok = false →
  to_key cat tok = Value k → k ≠ "" →
  ∀ fuel argv argp opt lf t,
    argv !! argp = Some tok → S argp = length argv →
    parse_loop PROGRAM cat (S (S fuel)) argv argp opt lf t
    = Ret tt (push_back k "" t).
Proof.
  intros Hf Harg Htok Hlong Hk Hne fuel argv argp opt lf t Hargp Hlast.
  assert (Hshort : is_short_option_of (Some d) tok = true).
  { simpl. by apply String.eqb_eq. }
  rewrite (parse_loop_option PROGRAM cat _ argv argp opt tok lf d t Hargp Hf).
  rewrite (parse_argument_value PROGRAM cat d tok argv argp false Harg Hargp).
  rewrite Hlong, Hshort. unfold parse_short_argument.
  rewrite Hlast, deref_Null. run.
  rewrite (set_success cat tok "" k t Hk Hne).
  rewrite Hlast. apply parse_loop_end.
Qed.

(** In list mode, a run of tokens that are no options is appended in order. *)
Lemma parse_loop_values (vals : list string) (fuel : nat)
    (argv : list string) (argp : nat) (L k : string) (t : keyval_t) :
  to_key cat L = Value k → k ≠ "" →
  (∀ i v, vals !! i = Some v →
     argv !! (argp + i) = Some v ∧ is_option cat v = false) →
  parse_loop PROGRAM cat (length vals + fuel) argv argp L true t
  = parse_loop PROGRAM cat fuel argv (argp + length vals) L true
      (foldl (λ t v, push_back k v t) t vals).
Proof.
  intros Hk Hne. revert argp t.
  induction vals as [|v vals IH]; intros argp t Hvals.
  - simpl. by rewrite Nat.add_0_r.
  - destruct (Hvals 0 v eq_refl) as [Hv Hnot]. rewrite Nat.add_0_r in Hv.
    change (length (v :: vals) + fuel) with (S (length vals + fuel)).
    rewrite (parse_loop_value PROGRAM cat _ argv argp L v k t Hv Hnot Hk Hne).
    rewrite IH.
    + simpl. by rewrite Nat.add_succ_r.
    + intros i v' Hi. rewrite Nat.add_succ_l, <- Nat.add_succ_r.
      by apply (Hvals (S i)).
Qed.

Lemma foldl_push_back_lookup (vals : list string) (k : string) (t : keyval_t) :
  foldl (λ t v, push_back k v t) t vals !! k
  = match vals with
    | [] => t !! k
    | _ => Some (default [] (t !! k) ++ vals)
    end.
Proof.
  revert t. induction vals as [|v vals IH]; intros t; [done |].
  simpl. rewrite IH, lookup_push_back. destruct vals as [|v' vals]; [done |].
  simpl. by rewrite <- (assoc_L (++)).
Qed.

Lemma foldl_push_back_lookup_ne (vals : list string) (k k' : string)
    (t : keyval_t) :
  k' ≠ k → foldl (λ t v, push_back k v t) t vals !! k' = t !! k'.
Proof.
  intros Hk'. revert t. induction vals as [|v vals IH]; intros t; [done |].
  simpl. by rewrite IH, lookup_push_back_ne.
Qed.

(** X20. A list-arity option followed, up to the end of the command line, by
    one or more tokens that are no options collects all of them, in order,
    under its key, after the values the key already had; no other key
    changes and [parse] returns. *)
Theorem list_argument_to_the_end (d : option_t) (L k prog v : string)
    (vals : list string) (t : keyval_t) :
  find_option cat L = Some d → argument d = list_argument →
  to_key cat L = Value k → k ≠ "" →
  (∀ x, x ∈ v :: vals → is_option cat x = false) →
  ∃ t', parse PROGRAM cat (prog :: L :: v :: vals) t = Ret tt t'
        ∧ t' !! k = Some (default [] (t !! k) ++ v :: vals)
        ∧ ∀ k', k' ≠ k → t' !! k' = t !! k'.
Proof.
  intros Hf Harg Hk Hne Hvals.
  exists (foldl (λ t x, push_back k x t) t (v :: vals)).
  split; [| split].
  - unfold parse. change (deref (prog :: L :: v :: vals) 1) with (Tok L).
    cbv iota.
    replace (length (prog :: L :: v :: vals))
      with (S (length (v :: vals) + 1)) by (simpl; lia).
    rewrite (parse_loop_option PROGRAM cat _ (prog :: L :: v :: vals) 1 L L
               false d t eq_refl Hf).
    unfold parse_argument.
    change (deref (prog :: L :: v :: vals) 1) with (Tok L).
    rewrite Harg. change (deref (prog :: L :: v :: vals) 2) with (Tok v).
    run. rewrite (parse_loop_values (v :: vals) 1 (prog :: L :: v :: vals) 2
                    L k t Hk Hne).
    + change (2 + length (v :: vals)) with (length (prog :: L :: v :: vals)).
      apply parse_loop_end.
    + intros i x Hi. split; [done |].
      apply Hvals. by apply list_elem_of_lookup_2 in Hi.
  - by rewrite foldl_push_back_lookup.
  - intros k' Hk'. by apply foldl_push_back_lookup_ne.
Qed.

(** X21. For a token that [find_option] resolved to a one-value descriptor,
    [parse_argument] never ends the process: the token is that descriptor's
    short or long form, so the "Unable to determine" diagnostic cannot be
    reached from [parse]. *)
Theorem one_value_never_exits (d : option_t) (tok : string)
    (argv : list string) (argp : nat) (lf : bool) (t : keyval_t) :
  find_option cat tok = Some d → takes_value d → argv !! argp = Some tok →
  ∀ c out err t',
    parse_argument PROGRAM cat (Some d) argv argp lf t ≠ Exit c out err t'.
Proof.
  intros [_ Hd]%find_in_Some Harg Hargp c out err t'.
  rewrite (parse_argument_value PROGRAM cat d tok argv argp lf Harg Hargp).
  unfold is_option_of in Hd.
  destruct (is_long_option_of (Some d) tok) eqn:Hl.
  - unfold parse_long_argument. run.
    by destruct (set_outcome cat (extract_option tok) (extract_value tok) t)
      as [(r & t1 & ->) | ->].
  - rewrite orb_false_r in Hd. rewrite Hd.
    unfold parse_short_argument. run.
    destruct (deref argv (S argp)) as [next| |]; try done.
    + destruct (negb (is_option cat next)).
      * by destruct (set_outcome cat tok next t) as [(r & t1 & ->) | ->].
      * by destruct (set_outcome cat tok "" t) as [(r & t1 & ->) | ->].
    + by destruct (set_outcome cat tok "" t) as [(r & t1 & ->) | ->].
Qed.

End scan_more.

(** ** Usage text *)

Section usage_more.

Lemma substring_prefix (n : nat) (s : string) :
  ∃ rest, s = String.substring 0 n s +:+ rest
          ∧ String.length (String.substring 0 n s) = n `min` String.length s.
Proof.
  revert n. induction s as [|a s IH]; intros [|n]; simpl.
  - by exists "".
  - by exists "".
  - by exists (String a s).
  - destruct (IH n) as (rest & Hs & Hlen). exists rest.
    split; [by rewrite <- Hs | by rewrite Hlen].
Qed.

(** X22. The "=<name>" placeholder that [usage] prints for a descriptor is
    cut to the 31 characters that fit its buffer: it is a prefix of
    "=<name>" (of nothing when the descriptor names no argument), never
    longer than 31 characters, complete when the name has at most 28
    characters and of exactly 31 characters, without the closing bracket,
    when the name is longer. *)
Theorem usage_placeholder (d : option_t) :
  ∃ arg rest,
    usage_entry d
    = nl +:+ "    " +:+ shortopt d +:+ ", " +:+ longopt d +:+ arg +:+ nl
      +:+ "        " +:+ desc d +:+ nl
    ∧ (if empty (name d) then "" else "=<" +:+ name d +:+ ">") = arg +:+ rest
    ∧ String.length arg < kArgumentNameLength
    ∧ (String.length (name d) ≤ 28 → rest = "")
    ∧ (28 < String.length (name d) →
       String.length arg = 31 ∧ String.length rest = String.length (name d) - 28).
Proof.
  unfold usage_entry, kArgumentNameLength, snprintf.
  destruct (empty (name d)) eqn:He.
  - exists "", "". apply empty_true in He. rewrite He. simpl.
    repeat split; try done; lia.
  - change (32 - 1) with 31.
    assert (Hslen : String.length ("=<" +:+ name d +:+ ">")
                    = String.length (name d) + 3).
    { rewrite !length_app. simpl. lia. }
    revert Hslen. generalize ("=<" +:+ name d +:+ ">"). intros s Hslen.
    destruct (substring_prefix 31 s) as (rest & Hs & Hlen).
    assert (Hrest : String.length s
                    = String.length (String.substring 0 31 s)
                      + String.length rest).
    { rewrite Hs at 1. apply length_app. }
    exists (String.substring 0 31 s), rest.
    split; [done |]. split; [done |]. split; [lia |]. split.
    + intros Hn. destruct rest; [done |]. simpl in Hrest. lia.
    + intros Hn. lia.
Qed.

End usage_more.

(** ** The further properties on concrete inputs *)

Section runs_more.

Lemma demo_table_ok : table_ok ∅.
Proof. intros k vs H. by rewrite lookup_empty in H. Defined.

Lemma output_in_demo : opt_output ∈ demo_catalog.
Proof. right; left. Defined.

Lemma find_option_first_match_run :
  ∃ pre post, demo_catalog = pre ++ opt_output :: post
              ∧ (∀ d', d' ∈ pre → ¬ matches d' "-o") ∧ matches opt_output "-o".
Proof.
  exact (proj1 (find_option_first_match demo_catalog "-o" opt_output) eq_refl).
Defined.

Lemma empty_token_recognized_run :
  is_option demo_catalog "" = true ∧ is_option quiet_catalog "=x" = true.
Proof.
  split.
  - apply (proj2 (proj1 (empty_token_recognized demo_catalog))).
    exists opt_tags. split; [right; right; left | left; reflexivity].
  - apply (proj2 (empty_token_recognized quiet_catalog)).
    eexists. split; [left | reflexivity].
Defined.

Lemma to_key_throws_run : to_key odd_catalog "-x" = OutOfRange.
Proof.
  apply (proj2 (to_key_throws odd_catalog "-x")).
  eexists. split; [left |]. split; reflexivity.
Defined.

Lemma to_key_spellings_run :
  to_key demo_catalog "-o" = to_key demo_catalog "--output"
  ∧ to_key demo_catalog "output" = Value "output".
Proof.
  destruct (to_key_spellings demo_catalog eq_refl opt_output output_in_demo)
    as (Hshort & Hlong & _).
  split; [apply Hshort; discriminate | apply Hlong; reflexivity].
Defined.

Lemma convert_forms_run :
  to_long_option demo_catalog "-o" = "--output"
  ∧ to_short_option demo_catalog "--output=f" = "-o".
Proof.
  destruct (convert_forms demo_catalog eq_refl opt_output output_in_demo)
    as (Hshort & Hlong).
  split.
  - apply Hshort. discriminate.
  - apply (Hlong ltac:(discriminate) "f").
Defined.

Lemma get_after_set_run :
  ∃ k first,
    to_key demo_catalog "-o" = Value k
    ∧ first = List.hd "a" (default [] ((∅ : keyval_t) !! k))
    ∧ has demo_catalog "-o" (push_back "output" "a" ∅)
      = Ret true (push_back "output" "a" ∅)
    ∧ get demo_catalog "-o" (push_back "output" "a" ∅)
      = Ret first (push_back "output" "a" ∅)
    ∧ ∀ v2 t'',
        set demo_catalog "-o" v2 (push_back "output" "a" ∅) = Ret 0%Z t'' →
        get demo_catalog "-o" t'' = Ret first t''.
Proof.
  apply (get_after_set demo_catalog "-o" "a" ∅ (push_back "output" "a" ∅)).
  reflexivity.
Defined.

Lemma set_other_key_run :
  push_back "output" "a" ∅ !! "tags" = (∅ : keyval_t) !! "tags".
Proof.
  apply (set_other_key demo_catalog "-o" "a" "--tags" "tags" ∅
           (push_back "output" "a" ∅) 0%Z); [reflexivity | reflexivity |].
  intros H. vm_compute in H. discriminate.
Defined.

Lemma query_absent_run :
  has demo_catalog "bogus" ∅ = Ret false ∅
  ∧ get demo_catalog "bogus" ∅ = Ret "" ∅.
Proof.
  apply (proj1 (query_absent demo_catalog "bogus" ∅));
    [reflexivity | exact demo_table_ok].
Defined.

Lemma get_in_range_run :
  get demo_catalog "-o" ∅ = Throw ↔ to_key demo_catalog "-o" = OutOfRange.
Proof. apply (get_in_range demo_catalog "-o" ∅ demo_table_ok). Defined.

Lemma table_ok_kept_run : table_ok (push_back "output" "a" ∅).
Proof.
  apply (proj1 (proj2 (table_ok_kept "prog" demo_catalog ∅) demo_table_ok)
           "-o" "a" 0%Z).
  reflexivity.
Defined.

Lemma parse_appends_run :
  extends (push_back "output" "a" ∅)
    (push_back "output" "b" (push_back "output" "a" ∅)).
Proof.
  apply (parse_appends "prog" demo_catalog ["prog"; "-o"; "b"]
           (push_back "output" "a" ∅)
           (push_back "output" "b" (push_back "output" "a" ∅)) tt).
  reflexivity.
Defined.

Lemma parse_keys_of_catalog_run :
  is_Some ((∅ : keyval_t) !! "output")
  ∨ ∃ d, d ∈ demo_catalog ∧ key_of (Some d) = Value "output" ∧ "output" ≠ "".
Proof.
  apply (parse_keys_of_catalog "prog" demo_catalog ["prog"; "-o"; "b"] ∅
           (push_back "output" "b" ∅) tt "output"); [reflexivity |].
  rewrite lookup_push_back. eauto.
Defined.

Lemma parse_exits_run :
  (1%Z = 0%Z ∧ "" = usage "prog" demo_catalog
   ∧ "prog" +:+ ": Invalid option '" +:+ "--bogus" +:+ "'" +:+ nl = "")
  ∨ (1%Z = 1%Z ∧ "" = ""
     ∧ ∃ msg, "prog" +:+ ": Invalid option '" +:+ "--bogus" +:+ "'" +:+ nl
              = "prog" +:+ ": " +:+ msg).
Proof.
  apply (parse_exits "prog" demo_catalog ["prog"; "--bogus"] ∅ ∅).
  reflexivity.
Defined.


Lemma no_argument_stepped_over_run :
  parse_loop "prog" demo_catalog 2 ["prog"; "-v"; "-o"] 1 "" false ∅
  = parse_loop "prog" demo_catalog 1 ["prog"; "-v"; "-o"] 2 "-v" false ∅.
Proof.
  apply (no_argument_stepped_over "prog" demo_catalog opt_verbose "-v");
    (reflexivity || discriminate).
Defined.

Lemma short_argument_last_run :
  parse_loop "prog" demo_catalog 2 ["prog"; "-o"] 1 "" false ∅
  = Ret tt (push_back "output" "" ∅).
Proof.
  apply (short_argument_last "prog" demo_catalog opt_output "-o" "output");
    try reflexivity; [left; reflexivity | discriminate].
Defined.

Lemma list_argument_to_the_end_run :
  ∃ t', parse "prog" demo_catalog ["prog"; "--tags"; "x"; "y"] ∅ = Ret tt t'
        ∧ t' !! "tags" = Some (default [] ((∅ : keyval_t) !! "tags") ++ ["x"; "y"])
        ∧ ∀ k', k' ≠ "tags" → t' !! k' = (∅ : keyval_t) !! k'.
Proof.
  apply (list_argument_to_the_end "prog" demo_catalog opt_tags "--tags" "tags"
           "prog" "x" ["y"] ∅); try reflexivity; [discriminate |].
  intros x Hx. rewrite !elem_of_cons, elem_of_nil in Hx.
  destruct Hx as [-> | [-> | []]]; reflexivity.
Defined.

Lemma one_value_never_exits_run :
  parse_argument "prog" demo_catalog (Some opt_output) ["prog"; "-o"] 1 false ∅
  ≠ Exit 1%Z "" "" ∅.
Proof.
  apply (one_value_never_exits "prog" demo_catalog opt_output "-o");
    try reflexivity. left; reflexivity.
Defined.

Lemma usage_placeholder_run :
  ∃ arg rest,
    usage_entry opt_output
    = nl +:+ "    " +:+ "-o" +:+ ", " +:+ "--output" +:+ arg +:+ nl
      +:+ "        " +:+ "Output file" +:+ nl
    ∧ "=<file>" = arg +:+ rest
    ∧ String.length arg < kArgumentNameLength
    ∧ (String.length "file" ≤ 28 → rest = "")
    ∧ (28 < String.length "file" →
       String.length arg = 31 ∧ String.length rest = String.length "file" - 28).
Proof. exact (usage_placeholder opt_output). Defined.

End runs_more.

(** ** Short against long *)

Section forms.

Variable cat : optlist_t.
Hypothesis Hwf : wf_catalog cat = true.

(** X23. In a well-formed catalog no token is both a short and a long
    option: [is_short_option] and [is_long_option] never hold together, and
    a recognized token satisfies exactly one of them. *)
Theorem short_long_exclusive (tok : string) :
  is_short_option cat tok && is_long_option cat tok = false
  ∧ (is_option cat tok = true →
     is_short_option cat tok = negb (is_long_option cat tok)).
Proof.
  assert (Hex : is_short_option cat tok && is_long_option cat tok = false).
  { unfold is_short_option, is_long_option.
    destruct (find_option cat tok) as [d|] eqn:Hf; [| done].
    apply find_option_Some in Hf as [Hd _].
    pose proof (wf_catalog_option cat Hwf d Hd) as Hwd.
    apply not_true_iff_false. intros [Hs Hl]%andb_true_iff.
    simpl in Hs, Hl. apply String.eqb_eq in Hs.
    assert (Hx : extract_option tok = longopt d).
    { apply orb_true_iff in Hl. rewrite !String.eqb_eq in Hl.
      destruct Hl as [Hl | Hl]; [| done].
      destruct (decide (longopt d = "")) as [He | Hne].
      - rewrite He in Hl. by rewrite Hl, He.
      - destruct (wf_option_long d Hwd Hne) as [_ Hc].
        rewrite Hl. by apply extract_option_plain. }
    apply extract_option_stripped in Hx as [_ Hx].
    destruct (decide (longopt d = "")) as [He | Hne].
    - assert (Hsn : shortopt d ≠ "") by (by apply wf_option_some).
      destruct (wf_option_short d Hwd Hsn) as [Hds _].
      rewrite He in Hx. rewrite <- Hs in Hds, Hsn.
      destruct Hx as [-> | [v ->]]; done.
    - destruct (wf_option_long d Hwd Hne) as [Hdd _].
      assert (Htd : double_dashed tok = true).
      { destruct Hx as [-> | [v ->]]; [done | by apply prefix_dashes_app]. }
      assert (Hsn : shortopt d ≠ "").
      { rewrite <- Hs. intros ->. done. }
      destruct (wf_option_short d Hwd Hsn) as [_ Hnd]. congruence. }
  split; [done |].
  unfold is_option. destruct (is_short_option cat tok), (is_long_option cat tok);
    done.
Qed.

End forms.

Lemma short_long_exclusive_run :
  is_short_option demo_catalog "-o" = negb (is_long_option demo_catalog "-o").
Proof.
  apply (proj2 (short_long_exclusive demo_catalog eq_refl "-o")). reflexivity.
Defined.
